(** * stater/repeat: the promise based function repeater of [src/index.ts]

    A shallow embedding of the [Repeater] class and of the way its
    asynchronous drivers run on the JavaScript event loop.

    Modelling conventions.
    - JavaScript numbers that hold integers are [Z]; [JSNumber] adds [NaN],
      which [parseInt] can return.  Arithmetic is exact, which is what the
      engine computes as long as the values stay within [max_safe]; a
      statement that reads a number computed by [parseInt] or [*] carries
      that range as a hypothesis.  [-0] is [0]: the class only tests a
      number for truth and passes it to [sleep].
    - A string is the list of its UTF-16 code units.
    - A class field declared without initialiser ([startDate], [endDate],
      [runTime], [_timeout], [_stopped]) is an [option]: [None] is
      [undefined].
    - Everything outside the instance (the variables the action closes over,
      the wall clock) is one value of an abstract type [W].  The user action
      is a function of the call index and of that world; it either returns
      or throws.  The action does not call back into the repeater.  The
      predicate given to [until] is a function of the world that returns:
      a predicate that throws is outside the model.
    - An [async] function runs synchronously up to its next [await].  Each
      such segment is one function of the model; a suspended driver is a
      [Task] recording the [await] it is parked on.  The hops by which the
      nested [run()] promises of a driver settle one after the other change
      no field and are folded into the segment that ends the run.
    - [sleep] of [@stater/sleep] is a parameter: the world once the delay
      is over. *)

From Stdlib Require Import ZArith QArith List String Ascii Bool Lia.
Import ListNotations.

Local Open Scope Z_scope.

(** ** JavaScript values used by the class *)

Inductive JSNumber : Type :=
| Num (z : Z)
| NaN.

(** [a * b] on numbers. *)
Definition js_mul (a b : JSNumber) : JSNumber :=
  match a, b with
  | Num x, Num y => Num (x * y)
  | _, _ => NaN
  end.

(** A string is the list of its UTF-16 code units. *)
Definition JSStr : Type := list N.

(** The string of an ASCII literal. *)
Fixpoint str (s : string) : JSStr :=
  match s with
  | EmptyString => []
  | String c s' => N_of_ascii c :: str s'
  end.

Module JSString.

Local Open Scope N_scope.

Fixpoint eqb (s t : JSStr) : bool :=
  match s, t with
  | [], [] => true
  | c :: s', d :: t' => (c =? d) && eqb s' t'
  | _, _ => false
  end.

(** [s.endsWith(suffix)]: some tail of [s] is [suffix]. *)
Fixpoint endsWith (s suffix : JSStr) : bool :=
  if eqb s suffix then true
  else match s with
       | [] => false
       | _ :: s' => endsWith s' suffix
       end.

(** The code units [parseInt] skips in front: WhiteSpace (TAB, VT, FF,
    ZWNBSP and the space separators) and LineTerminator (LF, CR, LS, PS). *)
Definition isWhiteSpace (c : N) : bool :=
  ((9 <=? c) && (c <=? 13))
  || (c =? 32) || (c =? 160) || (c =? 5760)
  || ((8192 <=? c) && (c <=? 8202))
  || (c =? 8232) || (c =? 8233) || (c =? 8239) || (c =? 8287)
  || (c =? 12288) || (c =? 65279).

Fixpoint trimStart (s : JSStr) : JSStr :=
  match s with
  | c :: s' => if isWhiteSpace c then trimStart s' else s
  | [] => []
  end.

(** Value of a code unit as a digit: [0-9], then [a-z] or [A-Z] from 10. *)
Definition digitValue (c : N) : option Z :=
  if (48 <=? c) && (c <=? 57) then Some (Z.of_N c - 48)%Z
  else if (97 <=? c) && (c <=? 122) then Some (Z.of_N c - 87)%Z
  else if (65 <=? c) && (c <=? 90) then Some (Z.of_N c - 55)%Z
  else None.

Definition digitIn (radix : Z) (c : N) : option Z :=
  match digitValue c with
  | Some d => if (d <? radix)%Z then Some d else None
  | None => None
  end.

(** The longest prefix of radix digits, read left to right.  The value is
    the mathematical one: it is the number [parseInt] returns as long as
    it is a safe integer (at most [2 ^ 53]), beyond which the engine
    rounds. *)
Fixpoint parseDigits (radix acc : Z) (s : JSStr) : Z :=
  match s with
  | c :: s' =>
      match digitIn radix c with
      | Some d => parseDigits radix (acc * radix + d)%Z s'
      | None => acc
      end
  | [] => acc
  end.

(** An optional sign in front: [-] is 45, [+] is 43. *)
Definition stripSign (s : JSStr) : Z * JSStr :=
  match s with
  | c :: r =>
      if c =? 45 then ((-1)%Z, r)
      else if c =? 43 then (1%Z, r)
      else (1%Z, s)
  | [] => (1%Z, s)
  end.

(** An optional [0x] or [0X] in front selects radix 16: [0] is 48, [x] is
    120, [X] is 88. *)
Definition stripPrefix (s : JSStr) : Z * JSStr :=
  match s with
  | c :: x :: r =>
      if (c =? 48) && ((x =? 120) || (x =? 88)) then (16%Z, r)
      else (10%Z, s)
  | _ => (10%Z, s)
  end.

(** [parseInt(s)] with no radix argument: leading white space, an optional
    sign, an optional [0x]/[0X] prefix, then digits; [NaN] when no digit
    follows. *)
Definition parseInt (s : JSStr) : JSNumber :=
  let '(sign, s2) := stripSign (trimStart s) in
  let '(radix, s3) := stripPrefix s2 in
  match s3 with
  | c :: _ =>
      match digitIn radix c with
      | Some _ => Num (sign * parseDigits radix 0 s3)
      | None => NaN
      end
  | [] => NaN
  end.

(** A magnitude written in decimal digits, and its value. *)
Definition isDigit (c : N) : bool := (48 <=? c) && (c <=? 57).

Fixpoint allDigits (s : JSStr) : bool :=
  match s with
  | c :: s' => isDigit c && allDigits s'
  | [] => true
  end.

Fixpoint decimal (s : JSStr) : Z :=
  match s with
  | c :: s' =>
      ((Z.of_N c - 48) * 10 ^ Z.of_nat (List.length s') + decimal s')%Z
  | [] => 0%Z
  end.

(** The text after the digits does not go on as a number. *)
Definition stops (rest : JSStr) : Prop :=
  match rest with
  | c :: _ => digitIn 10 c = None /\ (c =? 120) = false /\ (c =? 88) = false
  | [] => True
  end.

End JSString.

(** The largest integer up to which every integer is a double, so that
    [parseInt] and [*] are exact. *)
Definition max_safe : Z := 2 ^ 53.

(** ** The instance *)

Inductive Status : Type := idle | running | complete.

Record Repeater : Type := mkRepeater {
  status : Status;
  startDate : option Z;
  endDate : option Z;
  runTime : option Z;
  _repeated : Z;
  _timeout : option JSNumber;
  _stopped : option bool
}.

(** [new Repeater(action)]. *)
Definition fresh : Repeater :=
  {| status := idle; startDate := None; endDate := None; runTime := None;
     _repeated := 0; _timeout := None; _stopped := None |}.

Definition set_status (v : Status) (r : Repeater) : Repeater :=
  mkRepeater v (startDate r) (endDate r) (runTime r)
             (_repeated r) (_timeout r) (_stopped r).
Definition set_startDate (v : option Z) (r : Repeater) : Repeater :=
  mkRepeater (status r) v (endDate r) (runTime r)
             (_repeated r) (_timeout r) (_stopped r).
Definition set_endDate (v : option Z) (r : Repeater) : Repeater :=
  mkRepeater (status r) (startDate r) v (runTime r)
             (_repeated r) (_timeout r) (_stopped r).
Definition set_runTime (v : option Z) (r : Repeater) : Repeater :=
  mkRepeater (status r) (startDate r) (endDate r) v
             (_repeated r) (_timeout r) (_stopped r).
Definition set_repeated (v : Z) (r : Repeater) : Repeater :=
  mkRepeater (status r) (startDate r) (endDate r) (runTime r)
             v (_timeout r) (_stopped r).
Definition set_timeout (v : option JSNumber) (r : Repeater) : Repeater :=
  mkRepeater (status r) (startDate r) (endDate r) (runTime r)
             (_repeated r) v (_stopped r).
Definition set_stopped (v : option bool) (r : Repeater) : Repeater :=
  mkRepeater (status r) (startDate r) (endDate r) (runTime r)
             (_repeated r) (_timeout r) v.

(** The argument of [every]: a string or a number. *)
Inductive Duration : Type :=
| DStr (s : JSStr)
| DNum (n : JSNumber).

(** [every(ms)], lines 80-93. *)
Definition every (ms : Duration) (r : Repeater) : Repeater :=
  match ms with
  | DStr s =>
      if JSString.endsWith s (str "ms") then
        set_timeout (Some (JSString.parseInt s)) r
      else if JSString.endsWith s (str "s") then
        set_timeout (Some (js_mul (JSString.parseInt s) (Num 1000))) r
      else if JSString.endsWith s (str "m") then
        set_timeout
          (Some (js_mul (js_mul (JSString.parseInt s) (Num 1000)) (Num 60))) r
      else r
  | DNum n => set_timeout (Some n) r
  end.

(** [if (this._timeout)]: the delay to sleep for, when there is one. *)
Definition delay_of (r : Repeater) : option Z :=
  match _timeout r with
  | Some (Num z) => if z =? 0 then None else Some z
  | _ => None
  end.

(** [!this._stopped]. *)
Definition not_stopped (r : Repeater) : bool :=
  match _stopped r with
  | Some true => false
  | _ => true
  end.

(** The unit of a duration string, as [every] tests for it: the factor to
    milliseconds. *)
Definition factor_of (s : JSStr) : option Z :=
  if JSString.endsWith s (str "ms") then Some 1
  else if JSString.endsWith s (str "s") then Some 1000
  else if JSString.endsWith s (str "m") then Some 60000
  else None.

(** The specification's reading of a duration [whole.frac] with a unit of
    factor [factor]: the numeric magnitude, fraction included, times the
    factor. *)
Definition spec_milliseconds (whole frac : JSStr) (factor : Z) : Q :=
  (inject_Z (JSString.decimal whole)
   + inject_Z (JSString.decimal frac) / inject_Z (10 ^ Z.of_nat (List.length frac)))
  * inject_Z factor.

(** [every(whole.frac unit)] stores the milliseconds the specification
    reads. *)
Definition spec_every_fraction (whole frac unit : JSStr) (factor : Z)
           (r : Repeater) : Prop :=
  exists z,
    _timeout (every (DStr (whole ++ str "." ++ frac ++ unit)) r) = Some (Num z) /\
    (inject_Z z == spec_milliseconds whole frac factor)%Q.

(** How a call of the user action ends, and the world it leaves. *)
Inductive Outcome (W E : Type) : Type :=
| Returned (w : W)
| Thrown (e : E) (w : W).

Arguments Returned {W E} w.
Arguments Thrown {W E} e w.

(** ** A concrete world, after the README: the action sets a flag once the
    call index reaches a limit, and [until] polls the flag *)

Module Demo.

Record World : Type := mkWorld {
  time : Z;
  flag : bool
}.

Definition clock (w : World) : Z := time w.

Definition sleep (ms : Z) (w : World) : World := mkWorld (time w + ms) (flag w).

(** [rt => { if (rt >= limit) finished = true }] *)
Definition flag_at (limit : Z) (rt : Z) (w : World) : Outcome World string :=
  Returned (mkWorld (time w) (flag w || (limit <=? rt))).

(** [rt => { if (rt >= limit) throw 'boom' }] *)
Definition throw_at (limit : Z) (rt : Z) (w : World) : Outcome World string :=
  if limit <=? rt then Thrown "boom"%string w else Returned w.

Definition w0 : World := mkWorld 0 false.

End Demo.

(** ** The drivers on the event loop *)

Section Drivers.

(** Everything outside the instance. *)
Variable W : Type.
(** What the action may throw. *)
Variable E : Type.
(** [new Date().getTime()]. *)
Variable clock : W -> Z.
(** The world once [sleep(ms)] of [@stater/sleep] has resolved. *)
Variable sleep : Z -> W -> W.

(** [this.action], called with [this._repeated]. *)
Variable action : Z -> W -> Outcome W E.

Inductive Failure : Type :=
| UserError (e : E)
| TypeError.

(** What an observer of the run sees, oldest first. *)
Inductive Event : Type :=
| EvSleep (ms : Z)
| EvCall (i : Z)
| EvThrow (e : E)
| EvCheck (b : bool).

Record Machine : Type := mkMachine {
  rep : Repeater;
  world : W;
  log : list Event
}.

Definition with_rep (f : Repeater -> Repeater) (m : Machine) : Machine :=
  mkMachine (f (rep m)) (world m) (log m).

Definition logged (e : Event) (m : Machine) : Machine :=
  mkMachine (rep m) (world m) (log m ++ [e]).

(** The argument of [until]: a function (one that returns: a predicate
    that throws is outside the model), or any other value, of which only
    the truthiness is read. *)
Inductive Finished : Type :=
| FinFun (f : W -> bool)
| FinVal (truthy : bool).

Inductive Driver : Type :=
| DRepeat (count : Z)
| DUntil (finished : Finished)
| DInfinite.

(** The [await] a driver is parked on. *)
Inductive Await : Type :=
| AwaitSleep (ms : Z)
| AwaitAction.

Record Task : Type := mkTask {
  driver : Driver;
  parked : Await
}.

(** State of the promise of an [async] call. *)
Inductive Progress : Type :=
| Suspended (t : Task)
| Resolved
| Rejected (f : Failure).

(** Completion of a synchronous call. *)
Inductive Completion : Type :=
| Normal
| Throw (f : Failure).

Definition settle (c : Completion * Machine) : Progress * Machine :=
  match fst c with
  | Normal => (Resolved, snd c)
  | Throw f => (Rejected f, snd c)
  end.

(** [await this.action(this._repeated)], lines 47 and 179. *)
Definition call_action (d : Driver) (m : Machine) : Progress * Machine :=
  let i := _repeated (rep m) in
  match action i (world m) with
  | Returned w =>
      (Suspended (mkTask d AwaitAction),
       mkMachine (rep m) w (log m ++ [EvCall i]))
  | Thrown e w =>
      (Rejected (UserError e),
       mkMachine (rep m) w (log m ++ [EvCall i; EvThrow e]))
  end.

(** The pending [sleep(ms)] resolves. *)
Definition slept (ms : Z) (m : Machine) : Machine :=
  mkMachine (rep m) (sleep ms (world m)) (log m ++ [EvSleep ms]).

(** [_doAction()], lines 40-48, up to its first [await]. *)
Definition _doAction (d : Driver) (m : Machine) : Progress * Machine :=
  let m1 := with_rep (fun r => set_repeated (_repeated r + 1) r) m in
  match delay_of (rep m1) with
  | Some ms => (Suspended (mkTask d (AwaitSleep ms)), m1)
  | None => call_action d m1
  end.

(** [_complete()], lines 54-61.  Reading [getTime] of an unassigned
    [startDate] throws. *)
Definition _complete (m : Machine) : Completion * Machine :=
  let r1 := set_repeated 0 (rep m) in
  let r2 := set_status complete r1 in
  let now := clock (world m) in
  let r3 := set_endDate (Some now) r2 in
  match startDate r3 with
  | Some s => (Normal, mkMachine (set_runTime (Some (now - s)) r3)
                                 (world m) (log m))
  | None => (Throw TypeError, mkMachine r3 (world m) (log m))
  end.

(** The first two statements of every driver. *)
Definition begin (m : Machine) : Machine :=
  let r1 := set_status running (rep m) in
  mkMachine (set_startDate (Some (clock (world m))) r1) (world m) (log m).

(** [until(finished)], lines 108-128, up to its first [await]. *)
Definition until (finished : Finished) (m : Machine) : Progress * Machine :=
  _doAction (DUntil finished) (begin m).

(** [repeat(count)], lines 138-153, up to its first [await]. *)
Definition repeat (count : Z) (m : Machine) : Progress * Machine :=
  _doAction (DRepeat count) (begin m).

(** The rest of [run] of [infinite] once the delay is over, lines 178-181. *)
Definition tick_body (m : Machine) : Progress * Machine :=
  if not_stopped (rep m) then call_action DInfinite m else (Resolved, m).

(** [run] of [infinite], lines 171-182, up to its first [await]. *)
Definition tick (m : Machine) : Progress * Machine :=
  let m1 := with_rep (fun r => set_repeated (_repeated r + 1) r) m in
  match delay_of (rep m1) with
  | Some ms => (Suspended (mkTask DInfinite (AwaitSleep ms)), m1)
  | None => tick_body m1
  end.

(** [infinite()], lines 167-186: the state of the background promise and
    the machine when the call returns. *)
Definition infinite (m : Machine) : Progress * Machine :=
  tick (begin m).

(** [stop()], lines 191-195. *)
Definition stop (m : Machine) : Completion * Machine :=
  _complete (with_rep (set_stopped (Some true)) m).

(** The awaited promise has settled and the task runs to its next
    [await], to its return or to a throw. *)
Definition resume (t : Task) (m : Machine) : Progress * Machine :=
  match parked t with
  | AwaitSleep ms =>
      let m1 := slept ms m in
      match driver t with
      | DInfinite => tick_body m1
      | d => call_action d m1
      end
  | AwaitAction =>
      match driver t with
      | DRepeat count =>
          let count' := count - 1 in
          if count' =? 0 then settle (_complete m)
          else _doAction (DRepeat count') m
      | DUntil (FinFun f) =>
          let b := f (world m) in
          let m1 := logged (EvCheck b) m in
          if negb b then _doAction (DUntil (FinFun f)) m1
          else settle (_complete m1)
      | DUntil (FinVal b) =>
          if negb b then _doAction (DUntil (FinVal b)) m
          else settle (_complete m)
      | DInfinite => tick m
      end
  end.

(** A driver left alone: at most [fuel] resumptions. *)
Fixpoint exec (fuel : nat) (pm : Progress * Machine) : Progress * Machine :=
  match fuel, fst pm with
  | S n, Suspended t => exec n (resume t (snd pm))
  | _, _ => pm
  end.

(** The call indices in a log. *)
Fixpoint calls (l : list Event) : list Z :=
  match l with
  | EvCall i :: l' => i :: calls l'
  | _ :: l' => calls l'
  | [] => []
  end.

(** *** Several drivers and outside callers on one instance *)

Record System : Type := mkSystem {
  machine : Machine;
  tasks : list Task
}.

(** A public method is called, or the event loop wakes a parked task. *)
Inductive Op : Type :=
| OEvery (ms : Duration)
| ORepeat (count : Z)
| OUntil (finished : Finished)
| OInfinite
| OStop
| OWake (i : nat).

Definition spawn (pm : Progress * Machine) (ts : list Task) : System :=
  match fst pm with
  | Suspended t => mkSystem (snd pm) (ts ++ [t])
  | _ => mkSystem (snd pm) ts
  end.

Fixpoint settle_task (i : nat) (p : Progress) (ts : list Task) : list Task :=
  match ts, i with
  | [], _ => []
  | _ :: ts', O =>
      match p with
      | Suspended t' => t' :: ts'
      | _ => ts'
      end
  | t :: ts', S j => t :: settle_task j p ts'
  end.

Definition step (op : Op) (s : System) : System :=
  match op with
  | OEvery ms => mkSystem (with_rep (every ms) (machine s)) (tasks s)
  | ORepeat count => spawn (repeat count (machine s)) (tasks s)
  | OUntil finished => spawn (until finished (machine s)) (tasks s)
  | OInfinite => spawn (infinite (machine s)) (tasks s)
  | OStop => mkSystem (snd (stop (machine s))) (tasks s)
  | OWake i =>
      match nth_error (tasks s) i with
      | Some t =>
          let pm := resume t (machine s) in
          mkSystem (snd pm) (settle_task i (fst pm) (tasks s))
      | None => s
      end
  end.

Definition run_ops (ops : list Op) (s : System) : System :=
  fold_left (fun s op => step op s) ops s.

(** The status after each operation of a sequence. *)
Fixpoint statuses (ops : list Op) (s : System) : list Status :=
  match ops with
  | [] => []
  | op :: ops' =>
      let s' := step op s in
      status (rep (machine s')) :: statuses ops' s'
  end.


Definition settled (p : Progress) : bool :=
  match p with
  | Suspended _ => false
  | _ => true
  end.

(** The drivers whose promise the caller awaits. *)
Definition awaited (d : Driver) : bool :=
  match d with
  | DInfinite => false
  | _ => true
  end.

(** The action returns from a call with index [i], whatever the world. *)
Definition returns_at (i : Z) : Prop :=
  forall w, exists w', action i w = Returned w'.

(** The action returns from every call. *)
Definition never_throws : Prop :=
  forall i, returns_at i.

(** [lo + 1, ..., lo + n], the indices of [n] calls made from counter [lo]. *)
Definition indices (lo : Z) (n : nat) : list Z :=
  map (fun j => lo + Z.of_nat j) (seq 1 n).

(** Every predicate check in [evs] comes directly after a call. *)
Definition checks_follow_calls (evs : list Event) : Prop :=
  forall pre b post,
    evs = pre ++ EvCheck b :: post -> exists pre' i, pre = pre' ++ [EvCall i].

(** What holds of an [until(f)] run whose log was [l0] at the call: the
    events since then, and how they relate to the state of the promise. *)
Definition until_inv (f : W -> bool) (l0 : list Event)
           (pm : Progress * Machine) : Prop :=
  exists evs,
    log (snd pm) = l0 ++ evs /\
    startDate (rep (snd pm)) <> None /\
    checks_follow_calls evs /\
    match fst pm with
    | Suspended t =>
        driver t = DUntil (FinFun f) /\
        ~ In (EvCheck true) evs /\
        match parked t with
        | AwaitAction => exists l i, evs = l ++ [EvCall i]
        | AwaitSleep _ => True
        end
    | Resolved =>
        exists l, evs = l ++ [EvCheck true] /\ ~ In (EvCheck true) l /\
                  status (rep (snd pm)) = complete
    | Rejected _ => ~ In (EvCheck true) evs
    end.

(** The bookkeeping of a completed run. *)
Definition bookkeeping_done (m : Machine) : Prop :=
  status (rep m) = complete /\
  _repeated (rep m) = 0 /\
  exists s e,
    startDate (rep m) = Some s /\
    endDate (rep m) = Some e /\
    e = clock (world m) /\
    runTime (rep m) = Some (e - s).

(** What a run that started in machine [m] and has come to [r] owes when
    the action threw: the throw follows its call and is the last event, the
    promise is rejected with what was thrown, and [endDate] and [runTime]
    are as they were before the run. *)
Definition abort_contract (m : Machine) (r : Progress * Machine) : Prop :=
  exists evs,
    log (snd r) = log m ++ evs /\
    (forall e pre post,
        evs = pre ++ EvThrow e :: post ->
        post = [] /\
        (exists pre' i, pre = pre' ++ [EvCall i]) /\
        fst r = Rejected (UserError e) /\
        endDate (rep (snd r)) = endDate (rep m) /\
        runTime (rep (snd r)) = runTime (rep m)) /\
    (forall f, fst r = Rejected f ->
               exists e pre, f = UserError e /\ evs = pre ++ [EvThrow e]).

Definition no_throw (evs : list Event) : Prop := forall e, ~ In (EvThrow e) evs.

(** The invariant behind [abort_contract]. *)
Definition abort_inv (m : Machine) (r : Progress * Machine) : Prop :=
  exists evs,
    log (snd r) = log m ++ evs /\
    match fst r with
    | Suspended t =>
        awaited (driver t) = true /\ no_throw evs /\
        startDate (rep (snd r)) <> None /\
        endDate (rep (snd r)) = endDate (rep m) /\
        runTime (rep (snd r)) = runTime (rep m)
    | Resolved => no_throw evs
    | Rejected f =>
        exists e l i,
          f = UserError e /\ evs = l ++ [EvCall i; EvThrow e] /\ no_throw l /\
          endDate (rep (snd r)) = endDate (rep m) /\
          runTime (rep (snd r)) = runTime (rep m)
    end.

(** What holds while [infinite()] runs in the background with the delay
    [d] configured (or none, [d = None]). *)
Definition infinite_inv (d : option Z) (pm : Progress * Machine) : Prop :=
  delay_of (rep (snd pm)) = d /\
  startDate (rep (snd pm)) <> None /\
  match fst pm with
  | Suspended t =>
      driver t = DInfinite /\
      match parked t with
      | AwaitSleep ms => d = Some ms
      | AwaitAction => True
      end
  | _ => True
  end.

(** The operations that start a driver. *)
Definition driver_call (op : Op) : bool :=
  match op with
  | ORepeat _ | OUntil _ | OInfinite => true
  | _ => false
  end.

(** The life cycle as the specification words it, for one operation taking
    the system from [s] to [s']: the status stays, or goes from [idle] to
    [running], or from [running] to [complete]; it goes from [complete] to
    [running] only by a driver call that overwrites [startDate] and resets
    the counter, so that the first call of the new run has index 1. *)
Definition spec_lifecycle (op : Op) (s s' : System) : Prop :=
  match status (rep (machine s)), status (rep (machine s')) with
  | idle, idle | running, running | complete, complete => True
  | idle, running => True
  | running, complete => True
  | complete, running =>
      driver_call op = true /\
      startDate (rep (machine s')) = Some (clock (world (machine s))) /\
      _repeated (rep (machine s')) = 1
  | idle, complete | running, idle | complete, idle => False
  end.

(** The counter after [stop()] as the specification words it: wherever
    [stop()] falls in an [infinite()] run, the counter is 1 once the loop
    has unwound. *)
Definition spec_counter_after_stop (m0 : Machine) : Prop :=
  forall k t m fuel m',
    exec k (infinite m0) = (Suspended t, m) ->
    exec fuel (Suspended t, snd (stop m)) = (Resolved, m') ->
    _repeated (rep m') = 1.

(** ** Notions used to state further properties of the code *)

(** Any of the three drivers, called on machine [m]. *)
Definition start (d : Driver) (m : Machine) : Progress * Machine :=
  match d with
  | DRepeat count => repeat count m
  | DUntil finished => until finished m
  | DInfinite => infinite m
  end.

(** The world and the events of the delay in front of a call: those of
    [sleep(this._timeout)] when the timeout is truthy, none otherwise. *)
Definition delayed (r : Repeater) (w : W) : W :=
  match delay_of r with
  | Some ms => sleep ms w
  | None => w
  end.

Definition delay_events (r : Repeater) : list Event :=
  match delay_of r with
  | Some ms => [EvSleep ms]
  | None => []
  end.

Definition delay_ms (r : Repeater) : Z :=
  match delay_of r with
  | Some ms => ms
  | None => 0
  end.

(** The newest event is a sleep. *)
Definition ends_with_sleep (evs : list Event) : Prop :=
  exists l ms, evs = l ++ [EvSleep ms].

(** With the delay [d] configured every call comes directly after a sleep
    of [d], every sleep lasts [d], and a sleep is directly followed by a
    call unless it is the newest event; without a delay there is no
    sleep. *)
Definition sleeps_ok (d : option Z) (evs : list Event) : Prop :=
  match d with
  | Some ms =>
      (forall pre i post,
          evs = pre ++ EvCall i :: post -> exists pre', pre = pre' ++ [EvSleep ms]) /\
      (forall ms', In (EvSleep ms') evs -> ms' = ms) /\
      (forall pre ms' post,
          evs = pre ++ EvSleep ms' :: post ->
          post = [] \/ exists i post', post = EvCall i :: post')
  | None => forall ms', ~ In (EvSleep ms') evs
  end.

(** The invariant behind [sleeps_ok], for a run whose log was [l0] at the
    call. *)
Definition delay_inv (d : option Z) (l0 : list Event)
           (pm : Progress * Machine) : Prop :=
  exists evs,
    log (snd pm) = l0 ++ evs /\
    delay_of (rep (snd pm)) = d /\
    sleeps_ok d evs /\
    match fst pm with
    | Suspended t =>
        ~ ends_with_sleep evs /\
        match parked t with
        | AwaitSleep ms => d = Some ms
        | AwaitAction => True
        end
    | Resolved => True
    | Rejected _ => ~ ends_with_sleep evs
    end.

(** The contract of the delay primitive and of time: [sleep(ms)] lasts at
    least [ms], and the clock does not go back while the action runs. *)
Definition sleep_waits : Prop :=
  forall ms w, clock w + ms <= clock (sleep ms w).

Definition action_takes_time : Prop :=
  forall i w w', action i w = Returned w' -> clock w <= clock w'.

(** Counter and status of an awaited driver run alone from counter [c0],
    against the events [evs] of the run so far. *)
Definition counter_inv (c0 : Z) (l0 : list Event)
           (pm : Progress * Machine) : Prop :=
  exists evs,
    log (snd pm) = l0 ++ evs /\
    match fst pm with
    | Suspended t =>
        awaited (driver t) = true /\
        startDate (rep (snd pm)) <> None /\
        status (rep (snd pm)) = running /\
        _repeated (rep (snd pm))
        = c0 + Z.of_nat (List.length (calls evs))
          + match parked t with AwaitSleep _ => 1 | AwaitAction => 0 end
    | Resolved =>
        status (rep (snd pm)) = complete /\ _repeated (rep (snd pm)) = 0
    | Rejected _ =>
        status (rep (snd pm)) = running /\
        _repeated (rep (snd pm)) = c0 + Z.of_nat (List.length (calls evs))
    end.

(** The fields that only a driver call or [every] writes. *)
Definition same_configuration (r r' : Repeater) : Prop :=
  startDate r' = startDate r /\
  _timeout r' = _timeout r /\
  _stopped r' = _stopped r.

(** The events of an [until] run in which the predicate first holds after
    call [k + 1], from counter [c]: pass after pass the delay [ds], the
    call and the check of the predicate. *)
Fixpoint until_trace (ds : list Event) (c : Z) (k : nat) : list Event :=
  match k with
  | O => ds ++ [EvCall (c + 1); EvCheck true]
  | S k' => ds ++ [EvCall (c + 1); EvCheck false] ++ until_trace ds (c + 1) k'
  end.

(** The life cycle as the code has it, for one operation taking the system
    from [s] to [s']. *)
Definition code_lifecycle (op : Op) (s s' : System) : Prop :=
  match status (rep (machine s)), status (rep (machine s')) with
  | idle, idle | running, running | complete, complete => True
  | idle, running | complete, running =>
      driver_call op = true /\
      startDate (rep (machine s')) = Some (clock (world (machine s))) /\
      _repeated (rep (machine s')) = _repeated (rep (machine s)) + 1
  | running, complete =>
      (op = OStop \/ exists i, op = OWake i) /\
      _repeated (rep (machine s')) = 0
  | idle, complete => op = OStop
  | running, idle | complete, idle => False
  end.

(** On an instance on which no driver has started nothing is parked. *)
Definition idle_means_no_task (s : System) : Prop :=
  status (rep (machine s)) = idle -> tasks s = [].


(** ** Running a driver alone *)

Lemma exec_settled fuel pm : settled (fst pm) = true -> exec fuel pm = pm.
Proof.
  destruct pm as [[t| |f] m]; simpl; intros H; try discriminate;
    destruct fuel; reflexivity.
Qed.

Lemma exec_add a b pm : exec (a + b) pm = exec b (exec a pm).
Proof.
  revert pm; induction a as [|a IH]; intros pm; [reflexivity|].
  destruct pm as [[t| |f] m]; simpl.
  - apply IH.
  - now rewrite exec_settled.
  - now rewrite exec_settled.
Qed.

Lemma exec_stable a b pm :
  settled (fst (exec a pm)) = true -> (a <= b)%nat -> exec b pm = exec a pm.
Proof.
  intros Hs Hle. replace b with (a + (b - a))%nat by lia.
  rewrite exec_add. now apply exec_settled.
Qed.

Lemma calls_app l1 l2 : calls (l1 ++ l2) = calls l1 ++ calls l2.
Proof.
  induction l1 as [|e l1 IH]; [reflexivity|].
  destruct e; simpl; now rewrite IH.
Qed.

Lemma indices_S lo n : indices lo (S n) = (lo + 1) :: indices (lo + 1) n.
Proof.
  unfold indices. simpl. f_equal.
  rewrite <- seq_shift, map_map. apply map_ext. intros j. lia.
Qed.

Lemma resume_after_sleep d ms m :
  awaited d = true ->
  resume (mkTask d (AwaitSleep ms)) m = call_action d (slept ms m).
Proof. destruct d; [reflexivity | reflexivity | discriminate]. Qed.

(** One pass through [_doAction] when the action returns: after at most one
    resumption the driver is parked on the action's promise, the counter is
    one higher and the call is the newest event. *)
Lemma doAction_returns d m :
  awaited d = true ->
  returns_at (_repeated (rep m) + 1) ->
  exists k m2 l,
    (k <= 1)%nat /\
    exec k (_doAction d m) = (Suspended (mkTask d AwaitAction), m2) /\
    rep m2 = set_repeated (_repeated (rep m) + 1) (rep m) /\
    log m2 = l ++ [EvCall (_repeated (rep m) + 1)] /\
    calls (log m2) = calls (log m) ++ [_repeated (rep m) + 1].
Proof.
  intros Hd Hret. unfold _doAction.
  set (m1 := with_rep _ m).
  assert (Hr1 : _repeated (rep m1) = _repeated (rep m) + 1) by reflexivity.
  assert (Hw1 : world m1 = world m) by reflexivity.
  destruct (delay_of (rep m1)) as [ms|] eqn:Hdl.
  - destruct (Hret (sleep ms (world m))) as [w' Hw].
    exists 1%nat,
      (mkMachine (rep m1) w'
         ((log m ++ [EvSleep ms]) ++ [EvCall (_repeated (rep m) + 1)])),
      (log m ++ [EvSleep ms]).
    split; [lia|]. split.
    + cbn [exec fst snd]. rewrite resume_after_sleep by exact Hd.
      unfold call_action, slept. simpl. rewrite Hw. reflexivity.
    + simpl. repeat split. rewrite !calls_app. simpl. now rewrite app_nil_r.
  - destruct (Hret (world m)) as [w' Hw].
    exists 0%nat,
      (mkMachine (rep m1) w' (log m ++ [EvCall (_repeated (rep m) + 1)])),
      (log m).
    split; [lia|]. split.
    + simpl. unfold call_action. rewrite Hr1, Hw1, Hw. reflexivity.
    + simpl. repeat split. now rewrite calls_app.
Qed.

Lemma complete_started m s :
  startDate (rep m) = Some s ->
  _complete m =
  (Normal,
   mkMachine
     (set_runTime (Some (clock (world m) - s))
        (set_endDate (Some (clock (world m)))
           (set_status complete (set_repeated 0 (rep m)))))
     (world m) (log m)).
Proof. intros Hs. unfold _complete. simpl. now rewrite Hs. Qed.

Lemma repeat_loop n :
  forall m s,
  (forall i, _repeated (rep m) < i <= _repeated (rep m) + Z.of_nat (S n) ->
             returns_at i) ->
  startDate (rep m) = Some s ->
  exists k m' l,
    (k <= 2 * S n)%nat /\
    exec k (_doAction (DRepeat (Z.of_nat (S n))) m) = (Resolved, m') /\
    calls (log m') = calls (log m) ++ indices (_repeated (rep m)) (S n) /\
    log m' = l ++ [EvCall (_repeated (rep m) + Z.of_nat (S n))] /\
    status (rep m') = complete /\ _repeated (rep m') = 0.
Proof.
  induction n as [|n IH]; intros m s Hret Hs.
  - destruct (doAction_returns (DRepeat (Z.of_nat 1)) m eq_refl)
      as (k & m2 & l & Hk & He & Hr & Hl & Hc); [apply Hret; lia|].
    exists (k + 1)%nat. eexists. exists l.
    split; [lia|]. rewrite exec_add, He.
    cbn [exec fst snd]. unfold resume. simpl.
    rewrite (complete_started m2 s) by (rewrite Hr; exact Hs).
    unfold settle. simpl. repeat split; assumption.
  - destruct (doAction_returns (DRepeat (Z.of_nat (S (S n)))) m eq_refl)
      as (k & m2 & l & Hk & He & Hr & Hl & Hc); [apply Hret; lia|].
    destruct (IH m2 s) as (k' & m' & l' & Hk' & He' & Hc' & Hl' & Hst & Hrp).
    { intros i Hi. apply Hret. rewrite Hr in Hi. simpl in Hi. lia. }
    { rewrite Hr. exact Hs. }
    exists (k + (1 + k'))%nat, m', l'.
    split; [lia|]. rewrite exec_add, He, exec_add.
    replace (exec 1 (Suspended (mkTask (DRepeat (Z.of_nat (S (S n)))) AwaitAction), m2))
      with (_doAction (DRepeat (Z.of_nat (S n))) m2).
    2:{ cbn [exec fst snd]. unfold resume. cbn [parked driver].
        replace (Z.of_nat (S (S n)) - 1) with (Z.of_nat (S n)) by lia.
        destruct (Z.eqb_spec (Z.of_nat (S n)) 0); [lia | reflexivity]. }
    split; [exact He'|]. rewrite Hr in Hc', Hl'. simpl in Hc', Hl'.
    repeat split; try assumption.
    + rewrite Hc', Hc, <- app_assoc. f_equal. now rewrite (indices_S _ (S n)).
    + rewrite Hl'. do 3 f_equal. lia.
Qed.



(** ** [repeat] with a count that never reaches zero *)

Lemma indices_snoc lo n : indices lo (S n) = indices lo n ++ [lo + Z.of_nat (S n)].
Proof.
  unfold indices. rewrite seq_S, map_app. reflexivity.
Qed.

Lemma repeat_passes_zero c n :
  c <= 0 -> never_throws ->
  forall m,
  exists k m',
    exec k (_doAction (DRepeat c) m)
    = (Suspended (mkTask (DRepeat (c - Z.of_nat n)) AwaitAction), m') /\
    _repeated (rep m') = _repeated (rep m) + Z.of_nat (S n) /\
    calls (log m') = calls (log m) ++ indices (_repeated (rep m)) (S n).
Proof.
  intros Hc Hret m. induction n as [|n IH].
  - destruct (doAction_returns (DRepeat c) m eq_refl (Hret _))
      as (k & m2 & l & _ & He & Hr & _ & Hcl).
    exists k, m2. replace (c - Z.of_nat 0) with c by lia.
    repeat split; [exact He | now rewrite Hr | exact Hcl].
  - destruct IH as (k & m1 & He & Hr & Hcl).
    destruct (doAction_returns (DRepeat (c - Z.of_nat (S n))) m1 eq_refl (Hret _))
      as (k2 & m2 & l & _ & He2 & Hr2 & _ & Hcl2).
    exists (k + (1 + k2))%nat, m2.
    rewrite exec_add, He, exec_add.
    replace (exec 1 (Suspended (mkTask (DRepeat (c - Z.of_nat n)) AwaitAction), m1))
      with (_doAction (DRepeat (c - Z.of_nat (S n))) m1).
    2:{ cbn [exec fst snd]. unfold resume. cbn [parked driver].
        replace (c - Z.of_nat n - 1) with (c - Z.of_nat (S n)) by lia.
        destruct (Z.eqb_spec (c - Z.of_nat (S n)) 0); [lia | reflexivity]. }
    repeat split.
    + exact He2.
    + rewrite Hr2. simpl. lia.
    + rewrite Hcl2, Hcl, Hr, <- app_assoc. f_equal.
      rewrite (indices_snoc _ (S n)). do 2 f_equal. lia.
Qed.

Lemma doAction_suspends d m :
  awaited d = true -> never_throws ->
  exists p m', _doAction d m = (Suspended (mkTask d p), m').
Proof.
  intros Hd Hret. unfold _doAction.
  destruct (delay_of _) as [ms|]; [eauto|].
  unfold call_action.
  destruct (Hret (_repeated (rep (with_rep (fun r => set_repeated (_repeated r + 1) r) m)))
                 (world (with_rep (fun r => set_repeated (_repeated r + 1) r) m)))
    as [w' Hw].
  rewrite Hw. eauto.
Qed.

Lemma repeat_stays_parked fuel :
  never_throws ->
  forall c p m, c <= 0 ->
  settled (fst (exec fuel (Suspended (mkTask (DRepeat c) p), m))) = false.
Proof.
  intros Hret. induction fuel as [|fuel IH]; intros c p m Hc; [reflexivity|].
  cbn [exec fst snd]. destruct p as [ms|].
  - rewrite resume_after_sleep by reflexivity.
    unfold call_action.
    destruct (Hret (_repeated (rep (slept ms m))) (world (slept ms m))) as [w' Hw].
    rewrite Hw. now apply IH.
  - unfold resume. cbn [parked driver].
    destruct (Z.eqb_spec (c - 1) 0); [lia|].
    destruct (doAction_suspends (DRepeat (c - 1)) m eq_refl Hret) as (p' & m' & Hd).
    rewrite Hd. apply IH. lia.
Qed.

(** C3, what the code does: with a count of zero or below (and an action
    that returns) the decremented count is never zero, so the promise of
    [repeat(count)] never settles, and for every [n] the run reaches a point
    where the action has been called [n + 1] times, with the indices
    [1, ..., n + 1] on a new instance. *)
Theorem repeat_nonpositive_runs_forever (count : Z) (m : Machine) :
  count <= 0 ->
  never_throws ->
  (forall fuel, settled (fst (exec fuel (repeat count m))) = false) /\
  (forall n, exists fuel,
      calls (log (snd (exec fuel (repeat count m))))
      = calls (log m) ++ indices (_repeated (rep m)) (S n)).
Proof.
  intros Hc Hret. split.
  - intros fuel. unfold repeat.
    destruct (doAction_suspends (DRepeat count) (begin m) eq_refl Hret)
      as (p & m' & Hd).
    rewrite Hd. now apply repeat_stays_parked.
  - intros n.
    destruct (repeat_passes_zero count n Hc Hret (begin m)) as (k & m' & He & _ & Hcl).
    exists k. unfold repeat. rewrite He. exact Hcl.
Qed.

(** ** [until] with a predicate function *)

Lemma snoc_eq_split {A} (l : list A) x pre y post :
  l ++ [x] = pre ++ y :: post ->
  (post = [] /\ l = pre /\ x = y) \/
  (exists post', post = post' ++ [x] /\ l = pre ++ y :: post').
Proof.
  intros H. destruct post as [|z post0] using rev_ind.
  - left. apply app_inj_tail in H. destruct H; subst. auto.
  - right. clear IHpost0. exists post0.
    change (pre ++ y :: post0 ++ [z]) with (pre ++ (y :: post0) ++ [z]) in H.
    rewrite app_assoc in H. apply app_inj_tail in H.
    destruct H; subst. auto.
Qed.

Lemma cfc_nil : checks_follow_calls [].
Proof. intros pre b post H. now destruct pre. Qed.

Lemma cfc_snoc evs e :
  checks_follow_calls evs ->
  (forall b, e = EvCheck b -> exists l i, evs = l ++ [EvCall i]) ->
  checks_follow_calls (evs ++ [e]).
Proof.
  intros Hc He pre b post H.
  destruct (snoc_eq_split _ _ _ _ _ H) as [(_ & Hl & Hx) | (post' & _ & Hl)].
  - subst pre. now apply (He b).
  - now apply (Hc pre b post').
Qed.

Lemma not_in_snoc {A} (x e : A) l : ~ In x l -> e <> x -> ~ In x (l ++ [e]).
Proof.
  intros Hl He Hin. apply in_app_or in Hin. destruct Hin as [Hin | [Hin | []]]; auto.
Qed.

Lemma call_keeps_until_inv f l0 m evs :
  log m = l0 ++ evs ->
  startDate (rep m) <> None ->
  checks_follow_calls evs ->
  ~ In (EvCheck true) evs ->
  until_inv f l0 (call_action (DUntil (FinFun f)) m).
Proof.
  intros Hl Hs Hc Hn. unfold call_action.
  destruct (action _ _) as [w | e w].
  - exists (evs ++ [EvCall (_repeated (rep m))]). simpl.
    rewrite Hl, app_assoc. repeat split; try assumption.
    + apply cfc_snoc; [assumption | discriminate].
    + apply not_in_snoc; [assumption | discriminate].
    + eauto.
  - exists ((evs ++ [EvCall (_repeated (rep m))]) ++ [EvThrow e]). simpl.
    rewrite Hl. repeat split; try assumption.
    + now rewrite <- !app_assoc.
    + apply cfc_snoc; [apply cfc_snoc|]; try assumption; discriminate.
    + apply not_in_snoc; [apply not_in_snoc|]; try assumption; discriminate.
Qed.

Lemma doAction_keeps_until_inv f l0 m evs :
  log m = l0 ++ evs ->
  startDate (rep m) <> None ->
  checks_follow_calls evs ->
  ~ In (EvCheck true) evs ->
  until_inv f l0 (_doAction (DUntil (FinFun f)) m).
Proof.
  intros Hl Hs Hc Hn. unfold _doAction.
  destruct (delay_of _) as [ms|].
  - exists evs. simpl. repeat split; assumption.
  - now apply call_keeps_until_inv with (evs := evs).
Qed.

Lemma resume_keeps_until_inv f l0 t m :
  until_inv f l0 (Suspended t, m) -> until_inv f l0 (resume t m).
Proof.
  intros (evs & Hl & Hs & Hc & Hd & Hn & Hp). simpl in Hl, Hs, Hd, Hn, Hp.
  destruct t as [d p]. simpl in Hd, Hp. subst d.
  destruct p as [ms|].
  - rewrite resume_after_sleep by reflexivity.
    apply call_keeps_until_inv with (evs := evs ++ [EvSleep ms]); simpl.
    + now rewrite Hl, app_assoc.
    + assumption.
    + apply cfc_snoc; [assumption | discriminate].
    + apply not_in_snoc; [assumption | discriminate].
  - unfold resume. cbn [parked driver].
    destruct (f (world m)) eqn:Hf; cbn [negb].
    + destruct (startDate (rep m)) as [s|] eqn:Hsd; [|congruence].
      rewrite (complete_started _ s) by exact Hsd.
      exists (evs ++ [EvCheck true]). simpl. rewrite Hl, app_assoc.
      split; [reflexivity|]. split; [congruence|]. split.
      * apply cfc_snoc; [assumption | intros; assumption].
      * exists evs. auto.
    + apply doAction_keeps_until_inv with (evs := evs ++ [EvCheck false]); simpl.
      * now rewrite Hl, app_assoc.
      * assumption.
      * apply cfc_snoc; [assumption | intros; assumption].
      * apply not_in_snoc; [assumption | discriminate].
Qed.

Lemma exec_keeps_until_inv f l0 fuel :
  forall pm, until_inv f l0 pm -> until_inv f l0 (exec fuel pm).
Proof.
  induction fuel as [|fuel IH]; intros [p m] H; [exact H|].
  destruct p as [t| |e]; simpl; try exact H.
  apply IH. now apply resume_keeps_until_inv.
Qed.

Lemma until_inv_start f m : until_inv f (log m) (until (FinFun f) m).
Proof.
  unfold until. apply doAction_keeps_until_inv with (evs := []); simpl.
  - now rewrite app_nil_r.
  - discriminate.
  - apply cfc_nil.
  - auto.
Qed.

(** The log only grows. *)
Lemma call_action_log d m :
  exists tail,
    log (snd (call_action d m)) = log m ++ EvCall (_repeated (rep m)) :: tail.
Proof.
  unfold call_action. destruct (action _ _); simpl; eauto.
Qed.

Lemma doAction_log d m : exists tail, log (snd (_doAction d m)) = log m ++ tail.
Proof.
  unfold _doAction. destruct (delay_of _).
  - exists []. simpl. now rewrite app_nil_r.
  - destruct (call_action_log d
                (with_rep (fun r => set_repeated (_repeated r + 1) r) m))
      as [tail H].
    rewrite H. simpl. eauto.
Qed.

Lemma complete_log m : log (snd (_complete m)) = log m.
Proof. unfold _complete. simpl. now destruct (startDate (rep m)). Qed.

Lemma settle_snd c : snd (settle c) = snd c.
Proof. destruct c as [[|f] m]; reflexivity. Qed.

Lemma tick_body_log m : exists tail, log (snd (tick_body m)) = log m ++ tail.
Proof.
  unfold tick_body. destruct (not_stopped _).
  - destruct (call_action_log DInfinite m) as [tail H]. rewrite H. eauto.
  - exists []. simpl. now rewrite app_nil_r.
Qed.

Lemma tick_log m : exists tail, log (snd (tick m)) = log m ++ tail.
Proof.
  unfold tick. destruct (delay_of _).
  - exists []. simpl. now rewrite app_nil_r.
  - destruct (tick_body_log
                (with_rep (fun r => set_repeated (_repeated r + 1) r) m))
      as [tail H].
    rewrite H. simpl. eauto.
Qed.

Lemma resume_log t m : exists tail, log (snd (resume t m)) = log m ++ tail.
Proof.
  destruct t as [d [ms|]]; unfold resume; cbn [parked driver].
  - assert (H : exists tail, log (snd (call_action d (slept ms m)))
                             = log m ++ tail).
    { destruct (call_action_log d (slept ms m)) as [tail H].
      rewrite H. simpl. rewrite <- app_assoc. eauto. }
    destruct d; try exact H.
    destruct (tick_body_log (slept ms m)) as [tail Ht].
    rewrite Ht. simpl. rewrite <- app_assoc. eauto.
  - destruct d as [count | [f | b] | ].
    + destruct (count - 1 =? 0).
      * rewrite settle_snd, complete_log. exists []. now rewrite app_nil_r.
      * apply doAction_log.
    + destruct (f (world m)); cbn [negb].
      * rewrite settle_snd, complete_log. simpl. eauto.
      * destruct (doAction_log (DUntil (FinFun f)) (logged (EvCheck false) m))
          as [tail H].
        rewrite H. simpl. rewrite <- app_assoc. eauto.
    + destruct b; cbn [negb].
      * rewrite settle_snd, complete_log. exists []. now rewrite app_nil_r.
      * apply doAction_log.
    + apply tick_log.
Qed.

Lemma exec_log fuel :
  forall pm, exists tail, log (snd (exec fuel pm)) = log (snd pm) ++ tail.
Proof.
  induction fuel as [|fuel IH]; intros [p m].
  - exists []. simpl. now rewrite app_nil_r.
  - destruct p as [t| |e]; simpl;
      try (exists []; now rewrite app_nil_r).
    destruct (IH (resume t m)) as [tail1 H1].
    destruct (resume_log t m) as [tail2 H2].
    rewrite H1, H2, <- app_assoc. eauto.
Qed.

(** The first thing an awaited driver does, after the delay if one is
    configured, is to call the action. *)
Lemma awaited_driver_calls_first d m fuel :
  awaited d = true -> (1 <= fuel)%nat ->
  exists pre i post,
    log (snd (exec fuel (_doAction d m))) = log m ++ pre ++ EvCall i :: post /\
    forall b, ~ In (EvCheck b) pre.
Proof.
  intros Hd Hf. unfold _doAction.
  set (m1 := with_rep _ m).
  destruct (delay_of _) as [ms|].
  - destruct fuel as [|fuel]; [lia|]. cbn [exec fst snd].
    rewrite resume_after_sleep by exact Hd.
    destruct (exec_log fuel (call_action d (slept ms m1))) as [tail1 H1].
    destruct (call_action_log d (slept ms m1)) as [tail2 H2].
    exists [EvSleep ms], (_repeated (rep (slept ms m1))), (tail2 ++ tail1).
    split.
    + rewrite H1, H2. simpl. now rewrite <- !app_assoc.
    + intros b [H | []]. discriminate.
  - destruct (exec_log fuel (call_action d m1)) as [tail1 H1].
    destruct (call_action_log d m1) as [tail2 H2].
    exists [], (_repeated (rep m1)), (tail2 ++ tail1).
    split.
    + rewrite H1, H2. simpl. now rewrite <- !app_assoc.
    + intros b [].
Qed.

(** What no [until] run does: check before the first call, check without
    a call just before, or go on after a check that returned [true]. *)
Lemma until_safety (f : W -> bool) (m : Machine) (fuel : nat) :
  exists evs,
    log (snd (exec fuel (until (FinFun f) m))) = log m ++ evs /\
    ((1 <= fuel)%nat ->
     exists pre i post,
       evs = pre ++ EvCall i :: post /\ forall b, ~ In (EvCheck b) pre) /\
    checks_follow_calls evs /\
    (forall pre post,
        evs = pre ++ EvCheck true :: post ->
        post = [] /\
        fst (exec fuel (until (FinFun f) m)) = Resolved /\
        status (rep (snd (exec fuel (until (FinFun f) m)))) = complete).
Proof.
  destruct (exec_keeps_until_inv f (log m) fuel _ (until_inv_start f m))
    as (evs & Hl & _ & Hc & Hst).
  exists evs. split; [exact Hl|]. split; [|split; [exact Hc|]].
  - intros Hf.
    destruct (awaited_driver_calls_first (DUntil (FinFun f)) (begin m) fuel
                eq_refl Hf) as (pre & i & post & Hlog & Hpre).
    exists pre, i, post. split; [|exact Hpre].
    unfold until in Hl. rewrite Hl in Hlog. simpl in Hlog.
    now apply app_inv_head in Hlog.
  - intros pre post Hsplit.
    destruct (fst (exec fuel (until (FinFun f) m))) as [t| |e].
    + destruct Hst as (_ & Hn & _). exfalso. apply Hn.
      rewrite Hsplit. apply in_elt.
    + destruct Hst as (l & Hevs & Hn & Hcomp).
      rewrite Hevs in Hsplit.
      destruct (snoc_eq_split _ _ _ _ _ Hsplit) as [(Hp & _) | (post' & _ & Hl')].
      * auto.
      * exfalso. apply Hn. rewrite Hl'. apply in_elt.
    + exfalso. apply Hst. rewrite Hsplit. apply in_elt.
Qed.

(** ** Natural completion *)

Lemma doAction_progress d m :
  match fst (_doAction d m) with
  | Suspended t => driver t = d
  | Resolved => False
  | Rejected _ => True
  end.
Proof.
  unfold _doAction. destruct (delay_of _); [reflexivity|].
  unfold call_action. now destruct (action _ _).
Qed.

Lemma complete_bookkeeping m :
  fst (_complete m) = Normal -> bookkeeping_done (snd (_complete m)).
Proof.
  unfold _complete. simpl. destruct (startDate (rep m)) as [s|] eqn:Hs.
  - intros _. unfold bookkeeping_done. simpl. rewrite Hs.
    repeat split. now exists s, (clock (world m)).
  - discriminate.
Qed.

Lemma settle_bookkeeping c :
  match fst (settle c) with
  | Suspended _ => False
  | Resolved => fst c = Normal
  | Rejected _ => True
  end.
Proof. destruct c as [[|f] m]; simpl; auto. Qed.

Lemma resume_awaited t m :
  awaited (driver t) = true ->
  match fst (resume t m) with
  | Suspended t' => awaited (driver t') = true
  | Resolved => bookkeeping_done (snd (resume t m))
  | Rejected _ => True
  end.
Proof.
  intros Ha. destruct t as [d [ms|]]; simpl in Ha.
  - rewrite resume_after_sleep by exact Ha.
    unfold call_action. now destruct (action _ _).
  - assert (Hdo : forall d' m', awaited d' = true ->
              match fst (_doAction d' m') with
              | Suspended t' => awaited (driver t') = true
              | Resolved => bookkeeping_done (snd (_doAction d' m'))
              | Rejected _ => True
              end).
    { intros d' m' Hd'. pose proof (doAction_progress d' m') as H.
      destruct (fst (_doAction d' m')); [now rewrite H | contradiction | exact I]. }
    assert (Hco : forall m',
              match fst (settle (_complete m')) with
              | Suspended t' => awaited (driver t') = true
              | Resolved => bookkeeping_done (snd (settle (_complete m')))
              | Rejected _ => True
              end).
    { intros m'. pose proof (settle_bookkeeping (_complete m')) as H.
      rewrite settle_snd.
      destruct (fst (settle (_complete m')));
        [contradiction | now apply complete_bookkeeping | exact I]. }
    unfold resume. cbn [parked driver].
    destruct d as [count | [f | b] | ]; try discriminate.
    + destruct (count - 1 =? 0); [apply Hco | now apply Hdo].
    + destruct (f (world m)); cbn [negb]; [apply Hco | now apply Hdo].
    + destruct b; cbn [negb]; [apply Hco | now apply Hdo].
Qed.

Lemma exec_awaited_resolved fuel :
  forall t m m',
    awaited (driver t) = true ->
    exec fuel (Suspended t, m) = (Resolved, m') ->
    bookkeeping_done m'.
Proof.
  induction fuel as [|fuel IH]; intros t m m' Ha He; [discriminate|].
  cbn [exec fst snd] in He.
  pose proof (resume_awaited t m Ha) as Hr.
  destruct (resume t m) as [[t1| |f] m1]; simpl in Hr.
  - now apply (IH t1 m1).
  - rewrite exec_settled in He by reflexivity. congruence.
  - rewrite exec_settled in He by reflexivity. discriminate.
Qed.

Lemma awaited_driver_resolved d fuel m0 m' :
  awaited d = true ->
  exec fuel (_doAction d m0) = (Resolved, m') ->
  bookkeeping_done m'.
Proof.
  intros Ha He. pose proof (doAction_progress d m0) as Hp.
  destruct (_doAction d m0) as [[t| |f] m1]; simpl in Hp.
  - subst d. now apply (exec_awaited_resolved fuel t m1).
  - contradiction.
  - rewrite exec_settled in He by reflexivity. discriminate.
Qed.

(** C5: whenever the promise of [repeat(count)] or of [until(finished)]
    has resolved, the status is [complete], the call counter is 0, and
    [runTime] is [endDate] minus [startDate], [endDate] being the time of
    completion. *)
Theorem natural_completion_bookkeeping (fuel : nat) (m m' : Machine) :
  (exists count, exec fuel (repeat count m) = (Resolved, m')) \/
  (exists finished, exec fuel (until finished m) = (Resolved, m')) ->
  status (rep m') = complete /\
  _repeated (rep m') = 0 /\
  exists s e,
    startDate (rep m') = Some s /\
    endDate (rep m') = Some e /\
    e = clock (world m') /\
    runTime (rep m') = Some (e - s).
Proof.
  intros [[count He] | [fin He]].
  - exact (awaited_driver_resolved (DRepeat count) fuel (begin m) m' eq_refl He).
  - exact (awaited_driver_resolved (DUntil fin) fuel (begin m) m' eq_refl He).
Qed.

(** ** A throwing action *)

Lemma no_throw_snoc evs ev :
  no_throw evs -> (forall e, ev <> EvThrow e) -> no_throw (evs ++ [ev]).
Proof.
  intros Hn He e Hin. apply in_app_or in Hin.
  destruct Hin as [Hin | [Hin | []]]; [now apply (Hn e) | now apply (He e)].
Qed.

Lemma call_keeps_abort_inv m0 d m evs :
  awaited d = true ->
  log m = log m0 ++ evs ->
  no_throw evs ->
  startDate (rep m) <> None ->
  endDate (rep m) = endDate (rep m0) ->
  runTime (rep m) = runTime (rep m0) ->
  abort_inv m0 (call_action d m).
Proof.
  intros Ha Hl Hn Hs He Hr. unfold call_action.
  destruct (action _ _) as [w | e w].
  - exists (evs ++ [EvCall (_repeated (rep m))]). simpl.
    rewrite Hl, app_assoc. repeat split; try assumption.
    apply no_throw_snoc; [assumption | discriminate].
  - exists (evs ++ [EvCall (_repeated (rep m)); EvThrow e]). simpl.
    rewrite Hl, app_assoc. split; [reflexivity|].
    exists e, evs, (_repeated (rep m)). auto.
Qed.

Lemma doAction_keeps_abort_inv m0 d m evs :
  awaited d = true ->
  log m = log m0 ++ evs ->
  no_throw evs ->
  startDate (rep m) <> None ->
  endDate (rep m) = endDate (rep m0) ->
  runTime (rep m) = runTime (rep m0) ->
  abort_inv m0 (_doAction d m).
Proof.
  intros Ha Hl Hn Hs He Hr. unfold _doAction.
  destruct (delay_of _) as [ms|].
  - exists evs. simpl. repeat split; assumption.
  - now apply call_keeps_abort_inv with (evs := evs).
Qed.

Lemma complete_keeps_abort_inv m0 m evs :
  log m = log m0 ++ evs ->
  no_throw evs ->
  startDate (rep m) <> None ->
  abort_inv m0 (settle (_complete m)).
Proof.
  intros Hl Hn Hs.
  destruct (startDate (rep m)) as [s|] eqn:Hsd; [|congruence].
  rewrite (complete_started m s Hsd). exists evs. simpl. auto.
Qed.

Lemma resume_keeps_abort_inv m0 t m :
  abort_inv m0 (Suspended t, m) -> abort_inv m0 (resume t m).
Proof.
  intros (evs & Hl & Ha & Hn & Hs & He & Hr). simpl in Hl, Ha, Hn, Hs, He, Hr.
  destruct t as [d [ms|]]; simpl in Ha.
  - rewrite resume_after_sleep by exact Ha.
    apply call_keeps_abort_inv with (evs := evs ++ [EvSleep ms]);
      simpl; try assumption.
    + now rewrite Hl, app_assoc.
    + apply no_throw_snoc; [assumption | discriminate].
  - unfold resume. cbn [parked driver].
    destruct d as [count | [f | b] | ]; try discriminate.
    + destruct (count - 1 =? 0).
      * now apply complete_keeps_abort_inv with (evs := evs).
      * now apply doAction_keeps_abort_inv with (evs := evs).
    + assert (Hl' : forall b, log (logged (EvCheck b) m)
                              = log m0 ++ evs ++ [EvCheck b])
        by (intros b; simpl; now rewrite Hl, app_assoc).
      assert (Hn' : forall b, no_throw (evs ++ [EvCheck b]))
        by (intros b; apply no_throw_snoc; [assumption | discriminate]).
      destruct (f (world m)); cbn [negb].
      * now apply complete_keeps_abort_inv with (evs := evs ++ [EvCheck true]).
      * now apply doAction_keeps_abort_inv with (evs := evs ++ [EvCheck false]).
    + destruct b; cbn [negb].
      * now apply complete_keeps_abort_inv with (evs := evs).
      * now apply doAction_keeps_abort_inv with (evs := evs).
Qed.

Lemma exec_keeps_abort_inv m0 fuel :
  forall pm, abort_inv m0 pm -> abort_inv m0 (exec fuel pm).
Proof.
  induction fuel as [|fuel IH]; intros [p m] H; [exact H|].
  destruct p as [t| |e]; simpl; try exact H.
  apply IH. now apply resume_keeps_abort_inv.
Qed.

Lemma abort_inv_start d m :
  awaited d = true -> abort_inv m (_doAction d (begin m)).
Proof.
  intros Ha. apply doAction_keeps_abort_inv with (evs := []); simpl; auto.
  - now rewrite app_nil_r.
  - intros e [].
  - discriminate.
Qed.

Lemma abort_inv_contract m r : abort_inv m r -> abort_contract m r.
Proof.
  intros (evs & Hl & Hst). exists evs. split; [exact Hl|]. split.
  - intros e pre post Hsplit.
    destruct (fst r) as [t| |f].
    + destruct Hst as (_ & Hn & _). exfalso. apply (Hn e).
      rewrite Hsplit. apply in_elt.
    + exfalso. apply (Hst e). rewrite Hsplit. apply in_elt.
    + destruct Hst as (e' & l & i & Hf & Hevs & Hn & He & Hr).
      rewrite Hevs in Hsplit.
      change (l ++ [EvCall i; EvThrow e']) with (l ++ [EvCall i] ++ [EvThrow e'])
        in Hsplit.
      rewrite app_assoc in Hsplit.
      destruct (snoc_eq_split _ _ _ _ _ Hsplit)
        as [(Hp & Hpre & Hx) | (post' & _ & Hl')].
      * inversion Hx; subst. repeat split; eauto.
      * exfalso.
        destruct (snoc_eq_split _ _ _ _ _ Hl')
          as [(_ & _ & Hx) | (post'' & _ & Hl'')]; [discriminate|].
        apply (Hn e). rewrite Hl''. apply in_elt.
  - intros f Hf. rewrite Hf in Hst.
    destruct Hst as (e' & l & i & Hfe & Hevs & _).
    exists e', (l ++ [EvCall i]). split; [exact Hfe|].
    rewrite Hevs, <- app_assoc. reflexivity.
Qed.

(** C8: at every point of a [repeat] or [until] run, if the log of the run
    holds a throw of the action, then that throw follows its call and is
    the last event (no further invocation), the promise of the driver is
    rejected with what was thrown, and [endDate] and [runTime] still have
    the values they had before the run; a rejected promise always comes
    from such a throw.  A call in which the action throws rejects the
    promise at once and logs the throw. *)
Theorem throwing_action_aborts_run (fuel : nat) (m : Machine) :
  (forall count, abort_contract m (exec fuel (repeat count m))) /\
  (forall finished, abort_contract m (exec fuel (until finished m))) /\
  (forall d e w,
      action (_repeated (rep m)) (world m) = Thrown e w ->
      call_action d m =
      (Rejected (UserError e),
       mkMachine (rep m) w (log m ++ [EvCall (_repeated (rep m)); EvThrow e]))).
Proof.
  split; [|split].
  - intros x. apply abort_inv_contract, exec_keeps_abort_inv.
    now apply abort_inv_start.
  - intros x. apply abort_inv_contract, exec_keeps_abort_inv.
    now apply abort_inv_start.
  - intros d e w H. unfold call_action. now rewrite H.
Qed.

(** ** [infinite] and [stop] *)

Lemma tick_body_keeps_infinite_inv d m :
  delay_of (rep m) = d -> startDate (rep m) <> None ->
  infinite_inv d (tick_body m).
Proof.
  intros Hd Hs. unfold tick_body. destruct (not_stopped _).
  - unfold call_action. destruct (action _ _); repeat split; assumption.
  - repeat split; assumption.
Qed.

Lemma tick_keeps_infinite_inv d m :
  delay_of (rep m) = d -> startDate (rep m) <> None ->
  infinite_inv d (tick m).
Proof.
  intros Hd Hs. unfold tick.
  change (delay_of (rep (with_rep (fun r => set_repeated (_repeated r + 1) r) m)))
    with (delay_of (rep m)).
  rewrite Hd. destruct d as [ms|].
  - repeat split; assumption.
  - now apply tick_body_keeps_infinite_inv.
Qed.

Lemma resume_keeps_infinite_inv d t m :
  infinite_inv d (Suspended t, m) -> infinite_inv d (resume t m).
Proof.
  intros (Hd & Hs & Hdr & Hp). simpl in Hd, Hs, Hdr, Hp.
  destruct t as [dr p]. simpl in Hdr, Hp. subst dr.
  destruct p as [ms|]; unfold resume; cbn [parked driver].
  - now apply tick_body_keeps_infinite_inv.
  - now apply tick_keeps_infinite_inv.
Qed.

Lemma exec_keeps_infinite_inv d fuel :
  forall pm, infinite_inv d pm -> infinite_inv d (exec fuel pm).
Proof.
  induction fuel as [|fuel IH]; intros [p m] H; [exact H|].
  destruct p as [t| |e]; simpl; try exact H.
  apply IH. now apply resume_keeps_infinite_inv.
Qed.

Lemma infinite_inv_start m : infinite_inv (delay_of (rep m)) (infinite m).
Proof.
  unfold infinite. apply tick_keeps_infinite_inv; [reflexivity | discriminate].
Qed.

Lemma stop_started m s :
  startDate (rep m) = Some s ->
  stop m =
  (Normal,
   mkMachine
     (set_runTime (Some (clock (world m) - s))
        (set_endDate (Some (clock (world m)))
           (set_status complete (set_repeated 0 (set_stopped (Some true) (rep m))))))
     (world m) (log m)).
Proof. intros Hs. unfold stop. now rewrite (complete_started _ s). Qed.

Lemma delay_of_timeout r r' :
  _timeout r' = _timeout r -> delay_of r' = delay_of r.
Proof. unfold delay_of. now intros ->. Qed.

(** How the background loop unwinds once [stop()] has been called. *)
Lemma loop_after_stop d t m :
  infinite_inv d (Suspended t, m) ->
  let r := exec 2 (Suspended t, snd (stop m)) in
  fst r = Resolved /\
  fst (stop m) = Normal /\
  world (snd r) = match parked t, d with
                  | AwaitSleep ms, _ => sleep ms (world m)
                  | AwaitAction, Some ms => sleep ms (world m)
                  | AwaitAction, None => world m
                  end /\
  log (snd r) = log m ++ match parked t, d with
                         | AwaitSleep ms, _ => [EvSleep ms]
                         | AwaitAction, Some ms => [EvSleep ms]
                         | AwaitAction, None => []
                         end /\
  _repeated (rep (snd r)) = match parked t with
                            | AwaitSleep _ => 0
                            | AwaitAction => 1
                            end /\
  status (rep (snd r)) = complete.
Proof.
  intros (Hd & Hs & Hdr & Hp). simpl in Hd, Hs, Hdr, Hp.
  destruct (startDate (rep m)) as [s|] eqn:Hsd; [|congruence].
  rewrite (stop_started m s Hsd). cbn [fst snd].
  destruct t as [dr p]. simpl in Hdr, Hp. subst dr.
  destruct p as [ms|].
  - cbn. repeat split.
  - cbn [exec fst snd]. unfold resume, tick. cbn [parked driver].
    match goal with
    | |- context [delay_of ?r] =>
        rewrite (delay_of_timeout (rep m) r) by reflexivity
    end.
    rewrite Hd. destruct d as [ms|].
    + cbn. repeat split.
    + cbn. rewrite app_nil_r. repeat split.
Qed.

Lemma exec_calls_between a b pm :
  (a <= b)%nat ->
  calls (log (snd (exec b pm))) = calls (log (snd pm)) ->
  calls (log (snd (exec a pm))) = calls (log (snd pm)).
Proof.
  intros Hab Hb. replace b with (a + (b - a))%nat in Hb by lia.
  rewrite exec_add in Hb.
  destruct (exec_log (b - a) (exec a pm)) as [t2 H2].
  destruct (exec_log a pm) as [t1 H1].
  rewrite H2, H1, !calls_app, <- app_assoc in Hb.
  rewrite <- (app_nil_r (calls (log (snd pm)))) in Hb at 2.
  apply app_inv_head in Hb. apply app_eq_nil in Hb.
  rewrite H1, calls_app. destruct Hb as [-> _]. now rewrite app_nil_r.
Qed.

(** C4: take any point of an [infinite()] run with a delay [d] configured
    at which the loop is parked, and call [stop()] there.  Left to itself
    the loop then unwinds within two resumptions: the delay [d] of the tick
    in flight still elapses (it is the one event logged after [stop()]),
    the action of that tick is skipped, and at no later point has the
    action been called again. *)
Theorem stop_lets_pending_delay_elapse
        (m0 : Machine) (d : Z) (k : nat) (t : Task) (m : Machine) :
  delay_of (rep m0) = Some d ->
  exec k (infinite m0) = (Suspended t, m) ->
  exists m',
    (forall fuel, (2 <= fuel)%nat ->
                  exec fuel (Suspended t, snd (stop m)) = (Resolved, m')) /\
    log m' = log m ++ [EvSleep d] /\
    world m' = sleep d (world m) /\
    (forall fuel,
        calls (log (snd (exec fuel (Suspended t, snd (stop m)))))
        = calls (log m)).
Proof.
  intros Hd He.
  pose proof (exec_keeps_infinite_inv _ k _ (infinite_inv_start m0)) as Hinv.
  rewrite He, Hd in Hinv.
  destruct (loop_after_stop _ t m Hinv) as (Hres & _ & Hw & Hl & _).
  set (x := (Suspended t, snd (stop m))) in *.
  assert (Hpark : match parked t with
                  | AwaitSleep ms => Some d = Some ms
                  | AwaitAction => True
                  end) by (destruct Hinv as (_ & _ & _ & H); exact H).
  assert (Hl' : log (snd (exec 2 x)) = log m ++ [EvSleep d]).
  { rewrite Hl. destruct (parked t); [congruence | reflexivity]. }
  assert (Hw' : world (snd (exec 2 x)) = sleep d (world m)).
  { rewrite Hw. destruct (parked t); [congruence | reflexivity]. }
  assert (Hlogx : log (snd x) = log m).
  { unfold x, stop. cbn [snd]. now rewrite complete_log. }
  assert (Hstable : forall fuel, (2 <= fuel)%nat -> exec fuel x = exec 2 x).
  { intros fuel Hf. apply exec_stable; [now rewrite Hres | exact Hf]. }
  exists (snd (exec 2 x)). repeat split; try assumption.
  - intros fuel Hf. rewrite (Hstable fuel Hf).
    rewrite <- Hres. now destruct (exec 2 x).
  - intros fuel. rewrite <- Hlogx.
    apply (exec_calls_between fuel (Nat.max fuel 2)); [lia|].
    rewrite Hstable by lia. rewrite Hl', Hlogx, calls_app. simpl.
    now rewrite app_nil_r.
Qed.

(** C9, as the code has it: call [stop()] at any point of an [infinite()]
    run at which the loop is parked.  [stop()] writes 0 to the counter and
    the loop calls the action no more.  If the loop was waiting for the
    action's promise, it starts one more tick, whose increment leaves the
    counter at 1 once the loop has unwound; if it was waiting for its delay,
    the increment of that tick came before [stop()] and the counter stays
    at 0. *)
Theorem counter_after_stop (m0 : Machine) (k : nat) (t : Task) (m : Machine) :
  exec k (infinite m0) = (Suspended t, m) ->
  exists m',
    (forall fuel, (2 <= fuel)%nat ->
                  exec fuel (Suspended t, snd (stop m)) = (Resolved, m')) /\
    _repeated (rep (snd (stop m))) = 0 /\
    calls (log m') = calls (log m) /\
    _repeated (rep m') = match parked t with
                         | AwaitAction => 1
                         | AwaitSleep _ => 0
                         end.
Proof.
  intros He.
  pose proof (exec_keeps_infinite_inv _ k _ (infinite_inv_start m0)) as Hinv.
  rewrite He in Hinv.
  destruct (loop_after_stop _ t m Hinv) as (Hres & _ & _ & Hl & Hrep & _).
  set (x := (Suspended t, snd (stop m))) in *.
  exists (snd (exec 2 x)). repeat split.
  - intros fuel Hf. rewrite (exec_stable 2 fuel); [|now rewrite Hres | exact Hf].
    rewrite <- Hres. now destruct (exec 2 x).
  - unfold stop, _complete. cbn. now destruct (startDate (rep m)).
  - rewrite Hl, calls_app.
    destruct (parked t); [|destruct (delay_of (rep m0))]; simpl;
      now rewrite app_nil_r.
  - rewrite Hrep. now destruct (parked t).
Qed.

(** C10: [stop()] on an instance on which no driver has started (status
    [idle], [startDate] unassigned) throws a [TypeError] out of
    [_complete]; by then [_stopped] is set, the counter is 0, the status
    is [complete] and [endDate] is the current time, while [runTime] has
    not been written. *)
Theorem stop_before_any_driver (m : Machine) :
  status (rep m) = idle ->
  startDate (rep m) = None ->
  stop m =
  (Throw TypeError,
   mkMachine
     {| status := complete; startDate := None;
        endDate := Some (clock (world m)); runTime := runTime (rep m);
        _repeated := 0; _timeout := _timeout (rep m);
        _stopped := Some true |}
     (world m) (log m)).
Proof.
  intros _ Hs.
  unfold stop, _complete, with_rep, set_endDate, set_status, set_repeated,
    set_stopped.
  cbn. rewrite Hs. reflexivity.
Qed.

(** ** The status over arbitrary sequences of operations *)

Lemma every_keeps_fields ms r :
  status (every ms r) = status r /\
  startDate (every ms r) = startDate r /\
  endDate (every ms r) = endDate r /\
  runTime (every ms r) = runTime r /\
  _repeated (every ms r) = _repeated r /\
  _stopped (every ms r) = _stopped r.
Proof.
  destruct ms as [s | n]; unfold every; [|repeat split].
  destruct (JSString.endsWith s (str "ms")); [repeat split|].
  destruct (JSString.endsWith s (str "s")); [repeat split|].
  destruct (JSString.endsWith s (str "m")); repeat split.
Qed.

Lemma call_action_rep d m : rep (snd (call_action d m)) = rep m.
Proof. unfold call_action. now destruct (action _ _). Qed.

Lemma doAction_rep d m :
  rep (snd (_doAction d m)) = set_repeated (_repeated (rep m) + 1) (rep m).
Proof.
  unfold _doAction. destruct (delay_of _); [reflexivity|].
  now rewrite call_action_rep.
Qed.

Lemma tick_body_rep m : rep (snd (tick_body m)) = rep m.
Proof.
  unfold tick_body. destruct (not_stopped _); [|reflexivity].
  apply call_action_rep.
Qed.

Lemma tick_rep m :
  rep (snd (tick m)) = set_repeated (_repeated (rep m) + 1) (rep m).
Proof.
  unfold tick. destruct (delay_of _); [reflexivity|].
  now rewrite tick_body_rep.
Qed.

Lemma complete_rep m :
  status (rep (snd (_complete m))) = complete /\
  _repeated (rep (snd (_complete m))) = 0.
Proof. unfold _complete. simpl. now destruct (startDate (rep m)). Qed.

Lemma spawn_machine pm ts : machine (spawn pm ts) = snd pm.
Proof. unfold spawn. now destruct (fst pm). Qed.

(** A resumed task leaves the status alone, unless it completes the run. *)
Lemma resume_status t m :
  status (rep (snd (resume t m))) = status (rep m) \/
  (status (rep (snd (resume t m))) = complete /\
   _repeated (rep (snd (resume t m))) = 0).
Proof.
  assert (Hco : forall m', status (rep (snd (settle (_complete m')))) = complete /\
                           _repeated (rep (snd (settle (_complete m')))) = 0)
    by (intros m'; rewrite settle_snd; apply complete_rep).
  destruct t as [d [ms|]]; unfold resume; cbn [parked driver].
  - left. destruct d; rewrite ?call_action_rep, ?tick_body_rep; reflexivity.
  - destruct d as [count | [f | b] | ].
    + destruct (count - 1 =? 0); [right; apply Hco|].
      left. now rewrite doAction_rep.
    + destruct (f (world m)); cbn [negb]; [right; apply Hco|].
      left. now rewrite doAction_rep.
    + destruct b; cbn [negb]; [right; apply Hco|].
      left. now rewrite doAction_rep.
    + left. now rewrite tick_rep.
Qed.

Lemma step_status op s :
  (driver_call op = true /\
   status (rep (machine (step op s))) = running /\
   startDate (rep (machine (step op s))) = Some (clock (world (machine s))) /\
   _repeated (rep (machine (step op s))) = _repeated (rep (machine s)) + 1) \/
  (driver_call op = false /\
   (status (rep (machine (step op s))) = status (rep (machine s)) \/
    (status (rep (machine (step op s))) = complete /\
     _repeated (rep (machine (step op s))) = 0))).
Proof.
  destruct op as [ms | count | fin | | | i]; simpl.
  - right. split; [reflexivity|]. left. apply every_keeps_fields.
  - left. rewrite spawn_machine. unfold repeat. rewrite doAction_rep. auto.
  - left. rewrite spawn_machine. unfold until. rewrite doAction_rep. auto.
  - left. rewrite spawn_machine. unfold infinite. rewrite tick_rep. auto.
  - right. split; [reflexivity|]. right. unfold stop. apply complete_rep.
  - right. split; [reflexivity|].
    destruct (nth_error (tasks s) i) as [t|]; [|now left].
    apply resume_status.
Qed.

Lemma statuses_leave_idle ops :
  forall s, status (rep (machine s)) <> idle ->
            Forall (fun st => st <> idle) (statuses ops s).
Proof.
  induction ops as [|op ops IH]; intros s Hs; [constructor|].
  assert (Hs' : status (rep (machine (step op s))) <> idle).
  { destruct (step_status op s) as [(_ & H & _) | (_ & [H | (H & _)])];
      rewrite H; [discriminate | exact Hs | discriminate]. }
  simpl. constructor; [exact Hs' | now apply IH].
Qed.

Lemma step_keeps_idle_means_no_task op s :
  idle_means_no_task s -> idle_means_no_task (step op s).
Proof.
  intros Hinv Hidle.
  destruct (step_status op s) as [(_ & H & _) | (Hd & [H | (H & _)])];
    try congruence.
  rewrite H in Hidle. specialize (Hinv Hidle).
  destruct op as [ms | count | fin | | | i]; try discriminate Hd; simpl.
  - exact Hinv.
  - exact Hinv.
  - rewrite Hinv. now destruct i.
Qed.

Lemma run_ops_keeps_idle_means_no_task ops :
  forall s, idle_means_no_task s -> idle_means_no_task (run_ops ops s).
Proof.
  induction ops as [|op ops IH]; intros s Hs; [exact Hs|].
  unfold run_ops in *. cbn [fold_left].
  apply IH. now apply step_keeps_idle_means_no_task.
Qed.

Lemma step_code_lifecycle op s :
  idle_means_no_task s -> code_lifecycle op s (step op s).
Proof.
  intros Hinv. unfold code_lifecycle.
  destruct (step_status op s) as [(Hd & Hst & Hsd & Hr) | (Hd & Hst)].
  - rewrite Hst. destruct (status (rep (machine s))); auto.
  - destruct op as [ms | count | fin | | | i]; try discriminate Hd.
    + destruct (every_keeps_fields ms (rep (machine s))) as (H & _).
      simpl. rewrite H. now destruct (status (rep (machine s))).
    + destruct Hst as [H | (H & Hr)]; rewrite H;
        destruct (status (rep (machine s))); auto.
    + destruct (status (rep (machine s))) eqn:Hs.
      * assert (Hstep : step (OWake i) s = s)
          by (simpl; rewrite (Hinv Hs); now destruct i).
        now rewrite Hstep, Hs.
      * destruct Hst as [H | (H & Hr)]; rewrite H; eauto.
      * destruct Hst as [H | (H & Hr)]; rewrite H; auto.
Qed.

(** C7, as the code has it: on a new instance, at every point of every
    sequence of operations (public calls and resumptions of parked
    drivers), the status changes only from [idle] or [complete] to
    [running], and then by a driver call, and from [running] to
    [complete], and then by [stop()] or the completion of a driver, which
    leave the call counter at 0; no operation other than [stop()] takes it
    from [idle] to [complete]; it is never set back to [idle]; [every]
    never changes it.  A driver call sets [running] from any status,
    overwrites [startDate] with the current time and increments the call
    counter without resetting it. *)
Theorem status_changes_by_operation (w : W) (ops : list Op) (op : Op) :
  let s := run_ops ops (mkSystem (mkMachine fresh w []) []) in
  let s' := step op s in
  code_lifecycle op s s' /\
  (status (rep (machine s')) = idle -> status (rep (machine s)) = idle) /\
  (status (rep (machine s')) = running ->
   status (rep (machine s)) <> running -> driver_call op = true) /\
  (driver_call op = true ->
   status (rep (machine s')) = running /\
   startDate (rep (machine s')) = Some (clock (world (machine s))) /\
   _repeated (rep (machine s')) = _repeated (rep (machine s)) + 1) /\
  (status (rep (machine s')) = complete ->
   status (rep (machine s)) <> complete ->
   _repeated (rep (machine s')) = 0) /\
  (forall ms, op = OEvery ms ->
              status (rep (machine s')) = status (rep (machine s))) /\
  (forall ops',
      status (rep (machine s)) <> idle ->
      Forall (fun st => st <> idle) (statuses ops' s)).
Proof.
  intros s s'. subst s'.
  assert (Hinv : idle_means_no_task s).
  { apply run_ops_keeps_idle_means_no_task. intros _. reflexivity. }
  split; [now apply step_code_lifecycle|].
  assert (Hev : forall ms, op = OEvery ms ->
            status (rep (machine (step op s))) = status (rep (machine s))).
  { intros ms ->. simpl. apply every_keeps_fields. }
  destruct (step_status op s) as [(Hd & Hst & Hsd & Hr) | (Hd & Hst)].
  - repeat split; try congruence; try assumption.
    intros ops'. apply statuses_leave_idle.
  - repeat split; try congruence; try assumption.
    + destruct Hst as [H | (H & _)]; congruence.
    + destruct Hst as [H | (H & _)]; congruence.
    + destruct Hst as [H | (_ & H)]; congruence.
    + intros ops'. apply statuses_leave_idle.
Qed.

(** ** The delay in front of every call *)

Lemma not_ends_with_sleep_snoc evs e :
  (forall ms, e <> EvSleep ms) -> ~ ends_with_sleep (evs ++ [e]).
Proof.
  intros He (l & ms & H). apply app_inj_tail in H. destruct H as [_ H].
  now apply (He ms).
Qed.

Lemma not_ends_with_sleep_nil : ~ ends_with_sleep [].
Proof. intros (l & ms & H). now destruct l. Qed.

Lemma sleeps_ok_snoc d evs e :
  sleeps_ok d evs ->
  (forall i, e = EvCall i ->
             match d with
             | Some ms => exists l, evs = l ++ [EvSleep ms]
             | None => True
             end) ->
  (forall ms', e = EvSleep ms' -> d = Some ms') ->
  (ends_with_sleep evs -> exists i, e = EvCall i) ->
  sleeps_ok d (evs ++ [e]).
Proof.
  intros Hok Hcall Hsleep Hafter. destruct d as [ms|]; simpl in *.
  - destruct Hok as (Hc & Hs & Hf). split; [|split].
    + intros pre i post H.
      destruct (snoc_eq_split _ _ _ _ _ H) as [(_ & Hl & Hx) | (post' & _ & Hl)].
      * subst pre. now apply (Hcall i).
      * now apply (Hc pre i post').
    + intros ms' Hin. apply in_app_or in Hin.
      destruct Hin as [Hin | [Hin | []]]; [now apply Hs|].
      specialize (Hsleep ms' Hin). congruence.
    + intros pre ms' post H.
      destruct (snoc_eq_split _ _ _ _ _ H) as [(Hp & _) | (post' & Hp & Hl)].
      * now left.
      * right. destruct (Hf pre ms' post' Hl) as [-> | (i & post'' & ->)].
        -- destruct Hafter as [i Hi]; [now exists pre, ms'|].
           subst e. exists i, []. exact Hp.
        -- exists i, (post'' ++ [e]). exact Hp.
  - intros ms' Hin. apply in_app_or in Hin.
    destruct Hin as [Hin | [Hin | []]]; [now apply (Hok ms')|].
    specialize (Hsleep ms' Hin). discriminate.
Qed.

Lemma call_keeps_delay_inv d l0 dr m evs :
  log m = l0 ++ evs ->
  delay_of (rep m) = d ->
  sleeps_ok d evs ->
  match d with
  | Some ms => exists l, evs = l ++ [EvSleep ms]
  | None => True
  end ->
  delay_inv d l0 (call_action dr m).
Proof.
  intros Hl Hd Hok Hlast. unfold call_action.
  assert (Hcall : sleeps_ok d (evs ++ [EvCall (_repeated (rep m))])).
  { apply sleeps_ok_snoc; [assumption | intros; assumption | discriminate |].
    intros _. eauto. }
  destruct (action _ _) as [w | e w].
  - exists (evs ++ [EvCall (_repeated (rep m))]). simpl.
    rewrite Hl, app_assoc. repeat split; try assumption.
    apply not_ends_with_sleep_snoc. discriminate.
  - exists ((evs ++ [EvCall (_repeated (rep m))]) ++ [EvThrow e]). simpl.
    rewrite Hl, <- !app_assoc. split; [reflexivity|]. split; [assumption|].
    rewrite app_assoc. split.
    + apply sleeps_ok_snoc; [assumption | discriminate | discriminate |].
      intros H. exfalso. revert H. apply not_ends_with_sleep_snoc. discriminate.
    + apply not_ends_with_sleep_snoc. discriminate.
Qed.

Lemma doAction_keeps_delay_inv d l0 dr m evs :
  log m = l0 ++ evs ->
  delay_of (rep m) = d ->
  sleeps_ok d evs ->
  ~ ends_with_sleep evs ->
  delay_inv d l0 (_doAction dr m).
Proof.
  intros Hl Hd Hok Hne. unfold _doAction.
  change (delay_of (rep (with_rep (fun r => set_repeated (_repeated r + 1) r) m)))
    with (delay_of (rep m)).
  rewrite Hd. destruct d as [ms|].
  - exists evs. simpl. auto.
  - now apply call_keeps_delay_inv with (evs := evs).
Qed.

Lemma tick_body_keeps_delay_inv d l0 m evs :
  log m = l0 ++ evs ->
  delay_of (rep m) = d ->
  sleeps_ok d evs ->
  match d with
  | Some ms => exists l, evs = l ++ [EvSleep ms]
  | None => ~ ends_with_sleep evs
  end ->
  delay_inv d l0 (tick_body m).
Proof.
  intros Hl Hd Hok Hlast. unfold tick_body. destruct (not_stopped _).
  - apply call_keeps_delay_inv with (evs := evs); try assumption.
    now destruct d.
  - exists evs. simpl. auto.
Qed.

Lemma tick_keeps_delay_inv d l0 m evs :
  log m = l0 ++ evs ->
  delay_of (rep m) = d ->
  sleeps_ok d evs ->
  ~ ends_with_sleep evs ->
  delay_inv d l0 (tick m).
Proof.
  intros Hl Hd Hok Hne. unfold tick.
  change (delay_of (rep (with_rep (fun r => set_repeated (_repeated r + 1) r) m)))
    with (delay_of (rep m)).
  rewrite Hd. destruct d as [ms|].
  - exists evs. simpl. auto.
  - now apply tick_body_keeps_delay_inv with (evs := evs).
Qed.

Lemma complete_delay m : delay_of (rep (snd (_complete m))) = delay_of (rep m).
Proof.
  apply delay_of_timeout. unfold _complete. simpl.
  now destruct (startDate (rep m)).
Qed.

Lemma complete_keeps_delay_inv d l0 m evs :
  log m = l0 ++ evs ->
  delay_of (rep m) = d ->
  sleeps_ok d evs ->
  ~ ends_with_sleep evs ->
  delay_inv d l0 (settle (_complete m)).
Proof.
  intros Hl Hd Hok Hne. exists evs.
  rewrite settle_snd, complete_log, complete_delay.
  repeat split; try assumption.
  destruct (_complete m) as [[|f] m']; simpl; auto.
Qed.

Lemma resume_keeps_delay_inv d l0 t m :
  delay_inv d l0 (Suspended t, m) -> delay_inv d l0 (resume t m).
Proof.
  intros (evs & Hl & Hd & Hok & Hne & Hp). simpl in Hl, Hd, Hne, Hp.
  destruct t as [dr [ms|]]; simpl in Hp; unfold resume; cbn [parked driver].
  - rewrite Hp in Hok, Hd |- *. clear Hp.
    assert (Hok' : sleeps_ok (Some ms) (evs ++ [EvSleep ms])).
    { apply sleeps_ok_snoc; [assumption | discriminate | congruence |].
      intros H. contradiction. }
    assert (Hl' : log (slept ms m) = l0 ++ evs ++ [EvSleep ms])
      by (simpl; now rewrite Hl, app_assoc).
    destruct dr.
    + apply call_keeps_delay_inv with (evs := evs ++ [EvSleep ms]); eauto.
    + apply call_keeps_delay_inv with (evs := evs ++ [EvSleep ms]); eauto.
    + apply tick_body_keeps_delay_inv with (evs := evs ++ [EvSleep ms]); eauto.
  - destruct dr as [count | [f | b] | ].
    + destruct (count - 1 =? 0).
      * now apply complete_keeps_delay_inv with (evs := evs).
      * now apply doAction_keeps_delay_inv with (evs := evs).
    + assert (Hl' : forall b, log (logged (EvCheck b) m)
                              = l0 ++ evs ++ [EvCheck b])
        by (intros b; simpl; now rewrite Hl, app_assoc).
      assert (Hok' : forall b, sleeps_ok d (evs ++ [EvCheck b]))
        by (intros b; apply sleeps_ok_snoc;
            [assumption | discriminate | discriminate | intros H; contradiction]).
      assert (Hne' : forall b, ~ ends_with_sleep (evs ++ [EvCheck b]))
        by (intros b; apply not_ends_with_sleep_snoc; discriminate).
      destruct (f (world m)); cbn [negb].
      * now apply complete_keeps_delay_inv with (evs := evs ++ [EvCheck true]).
      * now apply doAction_keeps_delay_inv with (evs := evs ++ [EvCheck false]).
    + destruct b; cbn [negb].
      * now apply complete_keeps_delay_inv with (evs := evs).
      * now apply doAction_keeps_delay_inv with (evs := evs).
    + now apply tick_keeps_delay_inv with (evs := evs).
Qed.

Lemma exec_keeps_delay_inv d l0 fuel :
  forall pm, delay_inv d l0 pm -> delay_inv d l0 (exec fuel pm).
Proof.
  induction fuel as [|fuel IH]; intros [p m] H; [exact H|].
  destruct p as [t| |e]; simpl; try exact H.
  apply IH. now apply resume_keeps_delay_inv.
Qed.

Lemma sleeps_ok_nil d : sleeps_ok d [].
Proof.
  destruct d as [ms|]; simpl.
  - split; [|split].
    + intros pre i post H. now destruct pre.
    + intros ms' [].
    + intros pre ms' post H. now destruct pre.
  - intros ms' [].
Qed.

Lemma delay_inv_start dr m :
  delay_inv (delay_of (rep m)) (log m) (start dr m).
Proof.
  destruct dr as [count | fin | ]; simpl;
    [apply doAction_keeps_delay_inv with (evs := [])
    |apply doAction_keeps_delay_inv with (evs := [])
    |apply tick_keeps_delay_inv with (evs := [])];
    simpl; try (now rewrite app_nil_r); try reflexivity;
    try apply sleeps_ok_nil; apply not_ends_with_sleep_nil.
Qed.

(** X1: at every point of a run of any driver left alone, with a delay
    [ms] configured every call of the action comes directly after a sleep
    of [ms], the first call included; every sleep lasts [ms] and is
    directly followed by a call, unless it is the newest event; with no
    delay (a timeout unset, 0 or NaN) the run never sleeps.  A sleep is the
    newest event only once the promise has resolved: the loop of
    [infinite] has found the stop flag set after its delay. *)
Theorem delay_precedes_every_call (dr : Driver) (m : Machine) (fuel : nat) :
  exists evs,
    log (snd (exec fuel (start dr m))) = log m ++ evs /\
    match delay_of (rep m) with
    | Some ms =>
        (forall pre i post,
            evs = pre ++ EvCall i :: post ->
            exists pre', pre = pre' ++ [EvSleep ms]) /\
        (forall ms', In (EvSleep ms') evs -> ms' = ms) /\
        (forall pre ms' post,
            evs = pre ++ EvSleep ms' :: post ->
            post = [] \/ exists i post', post = EvCall i :: post')
    | None => forall ms', ~ In (EvSleep ms') evs
    end /\
    ((exists l ms', evs = l ++ [EvSleep ms']) ->
     fst (exec fuel (start dr m)) = Resolved).
Proof.
  destruct (exec_keeps_delay_inv _ _ fuel _ (delay_inv_start dr m))
    as (evs & Hl & _ & Hok & Hst).
  exists evs. split; [exact Hl|]. split; [exact Hok|].
  intros Hends.
  destruct (fst (exec fuel (start dr m))) as [t| |f];
    [destruct Hst as [Hne _]; contradiction | reflexivity | contradiction].
Qed.

(** ** One pass of an awaited driver, with its world *)

Lemma doAction_pass dr m w' :
  awaited dr = true ->
  action (_repeated (rep m) + 1) (delayed (rep m) (world m)) = Returned w' ->
  exists n,
    (n <= 1)%nat /\
    exec n (_doAction dr m)
    = (Suspended (mkTask dr AwaitAction),
       mkMachine (set_repeated (_repeated (rep m) + 1) (rep m)) w'
                 (log m ++ delay_events (rep m)
                        ++ [EvCall (_repeated (rep m) + 1)])).
Proof.
  intros Ha Hw. unfold _doAction, delayed, delay_events in *.
  change (delay_of (rep (with_rep (fun r => set_repeated (_repeated r + 1) r) m)))
    with (delay_of (rep m)).
  destruct (delay_of (rep m)) as [ms|].
  - exists 1%nat. split; [lia|]. cbn [exec fst snd].
    rewrite resume_after_sleep by exact Ha.
    unfold call_action, slept. simpl. rewrite Hw.
    now rewrite <- app_assoc.
  - exists 0%nat. split; [lia|]. cbn [exec].
    unfold call_action. simpl. now rewrite Hw.
Qed.

Lemma resume_repeat_more c m :
  c - 1 <> 0 ->
  exec 1 (Suspended (mkTask (DRepeat c) AwaitAction), m)
  = _doAction (DRepeat (c - 1)) m.
Proof.
  intros Hc. cbn [exec fst snd]. unfold resume. cbn [parked driver].
  destruct (Z.eqb_spec (c - 1) 0); [contradiction | reflexivity].
Qed.

Lemma resume_repeat_last m s :
  startDate (rep m) = Some s ->
  exec 1 (Suspended (mkTask (DRepeat 1) AwaitAction), m)
  = (Resolved,
     mkMachine
       (set_runTime (Some (clock (world m) - s))
          (set_endDate (Some (clock (world m)))
             (set_status complete (set_repeated 0 (rep m)))))
       (world m) (log m)).
Proof.
  intros Hs. cbn [exec fst snd]. unfold resume. cbn [parked driver].
  simpl. now rewrite (complete_started m s Hs).
Qed.

(** ** Elapsed time of [repeat] *)

Lemma delayed_clock r w :
  sleep_waits -> clock w + delay_ms r <= clock (delayed r w).
Proof.
  intros Hs. unfold delayed, delay_ms. destruct (delay_of r) as [ms|].
  - apply Hs.
  - lia.
Qed.

Lemma repeat_loop_clock n :
  sleep_waits -> action_takes_time ->
  forall m s,
    (forall i, _repeated (rep m) < i <= _repeated (rep m) + Z.of_nat (S n) ->
               returns_at i) ->
    startDate (rep m) = Some s ->
    exists k m',
      (k <= 2 * S n)%nat /\
      exec k (_doAction (DRepeat (Z.of_nat (S n))) m) = (Resolved, m') /\
      clock (world m) + Z.of_nat (S n) * delay_ms (rep m) <= clock (world m') /\
      runTime (rep m') = Some (clock (world m') - s).
Proof.
  intros Hsl Hact. induction n as [|n IH]; intros m s Hret Hs.
  - destruct (Hret (_repeated (rep m) + 1) ltac:(lia)
                   (delayed (rep m) (world m))) as [w' Hw].
    destruct (doAction_pass (DRepeat (Z.of_nat 1)) m w' eq_refl Hw)
      as (k & Hk & He).
    eexists (k + 1)%nat, _. split; [lia|].
    rewrite exec_add, He. split; [apply (resume_repeat_last _ s); exact Hs|].
    split; [cbn [world] | reflexivity].
    pose proof (delayed_clock (rep m) (world m) Hsl).
    pose proof (Hact _ _ _ Hw). change (Z.of_nat 1) with 1. lia.
  - destruct (Hret (_repeated (rep m) + 1) ltac:(lia)
                   (delayed (rep m) (world m))) as [w' Hw].
    destruct (doAction_pass (DRepeat (Z.of_nat (S (S n)))) m w' eq_refl Hw)
      as (k & Hk & He).
    set (m2 := mkMachine (set_repeated (_repeated (rep m) + 1) (rep m)) w'
                 (log m ++ delay_events (rep m)
                        ++ [EvCall (_repeated (rep m) + 1)])) in *.
    destruct (IH m2 s) as (k' & m' & Hk' & He' & Hc' & Hr').
    { intros i Hi. apply Hret. simpl in Hi. lia. }
    { exact Hs. }
    exists (k + (1 + k'))%nat, m'. split; [lia|].
    rewrite exec_add, He, exec_add, resume_repeat_more by lia.
    replace (Z.of_nat (S (S n)) - 1) with (Z.of_nat (S n)) by lia.
    split; [exact He'|]. split; [|exact Hr'].
    pose proof (delayed_clock (rep m) (world m) Hsl).
    pose proof (Hact _ _ _ Hw).
    change (delay_ms (rep m2)) with (delay_ms (rep m)) in Hc'.
    change (world m2) with w' in Hc'.
    rewrite (Nat2Z.inj_succ (S n)). lia.
Qed.

(** X2: when [sleep(ms)] lasts at least [ms] and the clock does not go back
    while the action runs, a [repeat(N)] on a new instance whose calls
    return resolves with a [runTime] of at least [N] times the configured
    delay (0 when none is configured). *)
Theorem repeat_takes_N_delays (N : Z) (m : Machine) :
  0 < N ->
  sleep_waits ->
  action_takes_time ->
  (forall i, 1 <= i <= N -> returns_at i) ->
  _repeated (rep m) = 0 ->
  exists m' t,
    exec (2 * Z.to_nat N) (repeat N m) = (Resolved, m') /\
    runTime (rep m') = Some t /\
    N * delay_ms (rep m) <= t.
Proof.
  intros HN Hsl Hact Hret H0.
  destruct (Z.to_nat N) as [|n] eqn:Hn; [lia|].
  assert (HNn : N = Z.of_nat (S n)) by lia.
  destruct (repeat_loop_clock n Hsl Hact (begin m) (clock (world m)))
    as (k & m' & Hk & He & Hc & Hr);
    [intros i Hi; apply Hret; simpl in Hi; lia | reflexivity |].
  exists m', (clock (world m') - clock (world m)).
  unfold repeat. rewrite HNn. split; [|split; [exact Hr|]].
  - rewrite (exec_stable k); rewrite ?He; auto.
  - change (delay_ms (rep (begin m))) with (delay_ms (rep m)) in Hc.
    change (world (begin m)) with (world m) in Hc. lia.
Qed.

(** ** [until] with a value that is not a function *)

Lemma until_value_false_passes n :
  never_throws ->
  forall m,
  exists k m',
    exec k (_doAction (DUntil (FinVal false)) m)
    = (Suspended (mkTask (DUntil (FinVal false)) AwaitAction), m') /\
    calls (log m') = calls (log m) ++ indices (_repeated (rep m)) (S n).
Proof.
  intros Hret. induction n as [|n IH]; intros m.
  - destruct (doAction_returns (DUntil (FinVal false)) m eq_refl (Hret _))
      as (k & m2 & l & _ & He & _ & _ & Hcl).
    exists k, m2. split; assumption.
  - destruct (doAction_returns (DUntil (FinVal false)) m eq_refl (Hret _))
      as (k & m2 & l & _ & He & Hr & _ & Hcl).
    destruct (IH m2) as (k' & m' & He' & Hcl').
    exists (k + (1 + k'))%nat, m'.
    rewrite exec_add, He, exec_add. split; [exact He'|].
    rewrite Hcl', Hcl, Hr, <- app_assoc. f_equal.
    now rewrite (indices_S _ (S n)).
Qed.

Lemma until_value_false_parked fuel :
  never_throws ->
  forall p m,
    settled (fst (exec fuel (Suspended (mkTask (DUntil (FinVal false)) p), m)))
    = false.
Proof.
  intros Hret. induction fuel as [|fuel IH]; intros p m; [reflexivity|].
  cbn [exec fst snd]. destruct p as [ms|].
  - rewrite resume_after_sleep by reflexivity.
    unfold call_action.
    destruct (Hret (_repeated (rep (slept ms m))) (world (slept ms m))) as [w' Hw].
    rewrite Hw. apply IH.
  - unfold resume. cbn [parked driver negb].
    destruct (doAction_suspends (DUntil (FinVal false)) m eq_refl Hret)
      as (p' & m' & Hd).
    rewrite Hd. apply IH.
Qed.

(** X3: [until(v)] with a value [v] that is not a function reads [v] as it
    was at the call.  A truthy [v] gives exactly one call of the action
    and then completion; with a falsy [v] (and an action that returns) the
    promise never settles and the action is called with 1, 2, 3, ...
    without end. *)
Theorem until_value_not_reevaluated (m : Machine) :
  never_throws ->
  (exists m',
      (forall fuel, (2 <= fuel)%nat ->
                    exec fuel (until (FinVal true) m) = (Resolved, m')) /\
      calls (log m') = calls (log m) ++ [_repeated (rep m) + 1] /\
      status (rep m') = complete) /\
  (forall fuel, settled (fst (exec fuel (until (FinVal false) m))) = false) /\
  (forall n, exists fuel,
      calls (log (snd (exec fuel (until (FinVal false) m))))
      = calls (log m) ++ indices (_repeated (rep m)) (S n)).
Proof.
  intros Hret. split; [|split].
  - destruct (doAction_returns (DUntil (FinVal true)) (begin m) eq_refl (Hret _))
      as (k & m2 & l & Hk & He & Hr & _ & Hcl).
    assert (Hs : startDate (rep m2) = Some (clock (world m)))
      by (rewrite Hr; reflexivity).
    assert (He2 : exec (k + 1) (until (FinVal true) m)
                  = settle (_complete m2)).
    { unfold until. rewrite exec_add, He. reflexivity. }
    rewrite (complete_started m2 _ Hs) in He2. unfold settle in He2.
    cbn [fst snd] in He2.
    eexists. split; [|split].
    + intros fuel Hf. rewrite (exec_stable (k + 1) fuel);
        [exact He2 | now rewrite He2 | lia].
    + simpl. exact Hcl.
    + reflexivity.
  - intros fuel. unfold until.
    destruct (doAction_suspends (DUntil (FinVal false)) (begin m) eq_refl Hret)
      as (p & m' & Hd).
    rewrite Hd. now apply until_value_false_parked.
  - intros n.
    destruct (until_value_false_passes n Hret (begin m)) as (k & m' & He & Hcl).
    exists k. unfold until. rewrite He. exact Hcl.
Qed.

(** ** [until] stops at the first call after which the predicate holds *)

Lemma resume_until_true f m s :
  startDate (rep m) = Some s ->
  f (world m) = true ->
  exec 1 (Suspended (mkTask (DUntil (FinFun f)) AwaitAction), m)
  = (Resolved,
     mkMachine
       (set_runTime (Some (clock (world m) - s))
          (set_endDate (Some (clock (world m)))
             (set_status complete (set_repeated 0 (rep m)))))
       (world m) (log m ++ [EvCheck true])).
Proof.
  intros Hs Hf. cbn [exec fst snd]. unfold resume. cbn [parked driver].
  rewrite Hf. cbn [negb].
  now rewrite (complete_started (logged (EvCheck true) m) s Hs).
Qed.

Lemma resume_until_false f m :
  f (world m) = false ->
  exec 1 (Suspended (mkTask (DUntil (FinFun f)) AwaitAction), m)
  = _doAction (DUntil (FinFun f)) (logged (EvCheck false) m).
Proof.
  intros Hf. cbn [exec fst snd]. unfold resume. cbn [parked driver].
  now rewrite Hf.
Qed.

Lemma calls_pass l r i :
  calls (l ++ delay_events r ++ [EvCall i]) = calls l ++ [i].
Proof.
  rewrite !calls_app. unfold delay_events.
  destruct (delay_of r); reflexivity.
Qed.

Lemma calls_snoc_check l b : calls (l ++ [EvCheck b]) = calls l.
Proof. rewrite calls_app. simpl. apply app_nil_r. Qed.

Lemma until_loop f k :
  forall m (traj : nat -> W) s,
    startDate (rep m) = Some s ->
    traj O = world m ->
    (forall j, (j < S k)%nat ->
               action (_repeated (rep m) + Z.of_nat (S j))
                      (delayed (rep m) (traj j))
               = Returned (traj (S j))) ->
    (forall j, (1 <= j < S k)%nat -> f (traj j) = false) ->
    f (traj (S k)) = true ->
    exists n m',
      (n <= 2 * S k)%nat /\
      exec n (_doAction (DUntil (FinFun f)) m) = (Resolved, m') /\
      calls (log m') = calls (log m) ++ indices (_repeated (rep m)) (S k) /\
      world m' = traj (S k) /\
      status (rep m') = complete.
Proof.
  induction k as [|k IH]; intros m traj s Hs H0 Hact Hfalse Htrue.
  - pose proof (Hact O ltac:(lia)) as Hw. rewrite H0 in Hw.
    change (Z.of_nat 1) with 1 in Hw.
    destruct (doAction_pass (DUntil (FinFun f)) m _ eq_refl Hw) as (n & Hn & He).
    eexists (n + 1)%nat, _. split; [lia|].
    rewrite exec_add, He. split; [apply (resume_until_true f _ s); assumption|].
    cbn [log world rep]. repeat split.
    rewrite calls_snoc_check, calls_pass, indices_S. reflexivity.
  - pose proof (Hact O ltac:(lia)) as Hw. rewrite H0 in Hw.
    change (Z.of_nat 1) with 1 in Hw.
    destruct (doAction_pass (DUntil (FinFun f)) m _ eq_refl Hw) as (n & Hn & He).
    set (m2 := mkMachine (set_repeated (_repeated (rep m) + 1) (rep m)) (traj 1%nat)
                 (log m ++ delay_events (rep m)
                        ++ [EvCall (_repeated (rep m) + 1)])) in *.
    destruct (IH (logged (EvCheck false) m2) (fun j => traj (S j)) s)
      as (n' & m' & Hn' & He' & Hc' & Hw' & Hst'); try assumption.
    + reflexivity.
    + intros j Hj. specialize (Hact (S j) ltac:(lia)).
      cbn [logged rep m2 _repeated set_repeated].
      replace (_repeated (rep m) + 1 + Z.of_nat (S j))
        with (_repeated (rep m) + Z.of_nat (S (S j))) by lia.
      exact Hact.
    + intros j Hj. apply Hfalse. lia.
    + exists (n + (1 + n'))%nat, m'. split; [lia|].
      rewrite exec_add, He, exec_add, resume_until_false
        by (apply (Hfalse 1%nat); lia).
      split; [exact He'|]. split; [|split; assumption].
      rewrite Hc'. cbn [logged log rep m2 _repeated set_repeated].
      rewrite calls_snoc_check, calls_pass, (indices_S _ (S k)).
      now rewrite <- app_assoc.
Qed.

(** X4: let [traj 0] be the world at the call of [until(f)] and [traj j]
    the world the [j]-th call of the action returns, each call being made
    on the world left by the one before (after the delay, if configured).
    If [f] is false after each of the first [k] calls and true after call
    [k + 1], the promise resolves with exactly [k + 1] calls, indexed from
    the counter on, and leaves the world [traj (k + 1)]. *)
Theorem until_stops_at_first_true
        (f : W -> bool) (k : nat) (m : Machine) (traj : nat -> W) :
  traj O = world m ->
  (forall j, (j < S k)%nat ->
             action (_repeated (rep m) + Z.of_nat (S j))
                    (delayed (rep m) (traj j))
             = Returned (traj (S j))) ->
  (forall j, (1 <= j < S k)%nat -> f (traj j) = false) ->
  f (traj (S k)) = true ->
  exists m',
    (forall fuel, (2 * S k <= fuel)%nat ->
                  exec fuel (until (FinFun f) m) = (Resolved, m')) /\
    calls (log m') = calls (log m) ++ indices (_repeated (rep m)) (S k) /\
    world m' = traj (S k) /\
    status (rep m') = complete.
Proof.
  intros H0 Hact Hfalse Htrue.
  destruct (until_loop f k (begin m) traj (clock (world m)))
    as (n & m' & Hn & He & Hc & Hw & Hst); try assumption; try reflexivity.
  exists m'. split; [|auto].
  intros fuel Hf. unfold until.
  rewrite (exec_stable n fuel); [exact He | now rewrite He | lia].
Qed.

(** ** What a running task leaves alone *)

Lemma complete_configuration m :
  same_configuration (rep m) (rep (snd (_complete m))).
Proof.
  unfold _complete. simpl. destruct (startDate (rep m)) eqn:Hs;
    repeat split; simpl; auto.
Qed.

Lemma resume_configuration t m :
  same_configuration (rep m) (rep (snd (resume t m))).
Proof.
  assert (Hsame : forall r, same_configuration r r) by (repeat split).
  assert (Hco : forall m', same_configuration (rep m')
                             (rep (snd (settle (_complete m')))))
    by (intros m'; rewrite settle_snd; apply complete_configuration).
  destruct t as [d [ms|]]; unfold resume; cbn [parked driver].
  - destruct d; rewrite ?call_action_rep, ?tick_body_rep; apply Hsame.
  - destruct d as [count | [f | b] | ].
    + destruct (count - 1 =? 0); [apply Hco|].
      rewrite doAction_rep. repeat split.
    + destruct (f (world m)); cbn [negb]; [apply (Hco (logged _ m))|].
      rewrite doAction_rep. repeat split.
    + destruct b; cbn [negb]; [apply Hco|].
      rewrite doAction_rep. repeat split.
    + rewrite tick_rep. repeat split.
Qed.

Lemma exec_configuration fuel :
  forall pm, same_configuration (rep (snd pm)) (rep (snd (exec fuel pm))).
Proof.
  induction fuel as [|fuel IH]; intros [p m]; [repeat split|].
  destruct p as [t| |e]; [| repeat split | repeat split].
  cbn [exec fst snd].
  destruct (IH (resume t m)) as (H1 & H2 & H3).
  destruct (resume_configuration t m) as (G1 & G2 & G3).
  repeat split; congruence.
Qed.

(** X5: an instance is reusable after an awaited run: once the promise of
    [repeat] or [until] has resolved, a further [repeat(M)] on the same
    instance (its calls returning) numbers its calls from 1 again, takes
    the time of the new call as [startDate], keeps the configured timeout
    and resolves. *)
Theorem second_run_restarts_at_1 (fuel1 : nat) (m m1 : Machine) (M : Z) :
  (exists count, exec fuel1 (repeat count m) = (Resolved, m1)) \/
  (exists finished, exec fuel1 (until finished m) = (Resolved, m1)) ->
  0 < M ->
  (forall i, 1 <= i <= M -> returns_at i) ->
  exists m2,
    (forall fuel, (2 * Z.to_nat M <= fuel)%nat ->
                  exec fuel (repeat M m1) = (Resolved, m2)) /\
    calls (log m2) = calls (log m1) ++ map Z.of_nat (seq 1 (Z.to_nat M)) /\
    startDate (rep m2) = Some (clock (world m1)) /\
    _timeout (rep m2) = _timeout (rep m).
Proof.
  intros Hfirst HM Hret.
  assert (Hdone : bookkeeping_done m1 /\ _timeout (rep m1) = _timeout (rep m)).
  { destruct Hfirst as [[count He] | [fin He]].
    - split; [exact (awaited_driver_resolved (DRepeat count) fuel1 (begin m) m1
                       eq_refl He)|].
      pose proof (exec_configuration fuel1 (repeat count m)) as (_ & H & _).
      rewrite He in H. simpl in H. rewrite H. unfold repeat.
      now rewrite doAction_rep.
    - split; [exact (awaited_driver_resolved (DUntil fin) fuel1 (begin m) m1
                       eq_refl He)|].
      pose proof (exec_configuration fuel1 (until fin m)) as (_ & H & _).
      rewrite He in H. simpl in H. rewrite H. unfold until.
      now rewrite doAction_rep. }
  destruct Hdone as ((_ & H0 & _) & Htm).
  destruct (Z.to_nat M) as [|n] eqn:Hn; [lia|].
  assert (HMn : M = Z.of_nat (S n)) by lia.
  destruct (repeat_loop n (begin m1) (clock (world m1)))
    as (k & m2 & l & Hk & He & Hc & _ & _ & _);
    [intros i Hi; apply Hret; simpl in Hi; lia | reflexivity |].
  simpl rep in Hc. simpl log in Hc.
  change (_repeated (set_startDate (Some (clock (world m1)))
                       (set_status running (rep m1))))
    with (_repeated (rep m1)) in Hc.
  rewrite H0 in Hc.
  exists m2. unfold repeat. rewrite HMn. repeat split.
  - intros fuel Hf. rewrite (exec_stable k fuel); [exact He | now rewrite He | lia].
  - exact Hc.
  - pose proof (exec_configuration k (_doAction (DRepeat (Z.of_nat (S n))) (begin m1)))
      as (H & _ & _).
    rewrite He in H. simpl in H. rewrite H. now rewrite doAction_rep.
  - pose proof (exec_configuration k (_doAction (DRepeat (Z.of_nat (S n))) (begin m1)))
      as (_ & H & _).
    rewrite He in H. simpl in H. rewrite H, doAction_rep. exact Htm.
Qed.

(** ** The counter during an awaited run *)

Lemma length_calls_snoc_call evs i :
  Z.of_nat (List.length (calls (evs ++ [EvCall i])))
  = Z.of_nat (List.length (calls evs)) + 1.
Proof. rewrite calls_app, length_app. simpl. lia. Qed.

Lemma call_keeps_counter_inv c0 l0 dr m evs :
  awaited dr = true ->
  log m = l0 ++ evs ->
  startDate (rep m) <> None ->
  status (rep m) = running ->
  _repeated (rep m) = c0 + Z.of_nat (List.length (calls evs)) + 1 ->
  counter_inv c0 l0 (call_action dr m).
Proof.
  intros Ha Hl Hs Hst Hc. unfold call_action.
  destruct (action _ _) as [w | e w].
  - exists (evs ++ [EvCall (_repeated (rep m))]). simpl.
    rewrite Hl, app_assoc, length_calls_snoc_call.
    repeat split; try assumption. lia.
  - exists (evs ++ [EvCall (_repeated (rep m)); EvThrow e]). simpl.
    rewrite Hl, app_assoc. repeat split; try assumption.
    rewrite calls_app, length_app. simpl. lia.
Qed.

Lemma doAction_keeps_counter_inv c0 l0 dr m evs :
  awaited dr = true ->
  log m = l0 ++ evs ->
  startDate (rep m) <> None ->
  status (rep m) = running ->
  _repeated (rep m) = c0 + Z.of_nat (List.length (calls evs)) ->
  counter_inv c0 l0 (_doAction dr m).
Proof.
  intros Ha Hl Hs Hst Hc. unfold _doAction.
  destruct (delay_of _) as [ms|].
  - exists evs. simpl. repeat split; try assumption. lia.
  - apply call_keeps_counter_inv with (evs := evs); simpl; try assumption. lia.
Qed.

Lemma complete_keeps_counter_inv c0 l0 m evs :
  log m = l0 ++ evs ->
  startDate (rep m) <> None ->
  counter_inv c0 l0 (settle (_complete m)).
Proof.
  intros Hl Hs.
  destruct (startDate (rep m)) as [s|] eqn:Hsd; [|congruence].
  rewrite (complete_started m s Hsd). exists evs. simpl. auto.
Qed.

Lemma resume_keeps_counter_inv c0 l0 t m :
  counter_inv c0 l0 (Suspended t, m) -> counter_inv c0 l0 (resume t m).
Proof.
  intros (evs & Hl & Ha & Hs & Hst & Hc). simpl in Hl, Ha, Hs, Hst, Hc.
  destruct t as [d [ms|]]; simpl in Ha, Hc.
  - rewrite resume_after_sleep by exact Ha.
    apply call_keeps_counter_inv with (evs := evs ++ [EvSleep ms]);
      simpl; try assumption.
    + now rewrite Hl, app_assoc.
    + rewrite calls_app. simpl. now rewrite app_nil_r.
  - unfold resume. cbn [parked driver].
    assert (Hc' : _repeated (rep m) = c0 + Z.of_nat (List.length (calls evs)))
      by lia.
    destruct d as [count | [f | b] | ]; try discriminate.
    + destruct (count - 1 =? 0).
      * now apply complete_keeps_counter_inv with (evs := evs).
      * now apply doAction_keeps_counter_inv with (evs := evs).
    + assert (Hl' : forall b, log (logged (EvCheck b) m)
                              = l0 ++ evs ++ [EvCheck b])
        by (intros b; simpl; now rewrite Hl, app_assoc).
      destruct (f (world m)); cbn [negb].
      * now apply complete_keeps_counter_inv with (evs := evs ++ [EvCheck true]).
      * apply doAction_keeps_counter_inv with (evs := evs ++ [EvCheck false]);
          try assumption; auto.
        simpl. now rewrite calls_snoc_check.
    + destruct b; cbn [negb].
      * now apply complete_keeps_counter_inv with (evs := evs).
      * now apply doAction_keeps_counter_inv with (evs := evs).
Qed.

Lemma exec_keeps_counter_inv c0 l0 fuel :
  forall pm, counter_inv c0 l0 pm -> counter_inv c0 l0 (exec fuel pm).
Proof.
  induction fuel as [|fuel IH]; intros [p m] H; [exact H|].
  destruct p as [t| |e]; simpl; try exact H.
  apply IH. now apply resume_keeps_counter_inv.
Qed.

(** X6: at every point of a [repeat] or [until] run left alone, started
    with the counter at [c0]: while the promise is pending the status is
    [running] and the counter is [c0] plus the number of calls made so far
    when the driver waits for the action, and one more when it waits for
    the delay (the increment comes before the sleep); after a throw the
    status is still [running] and the counter still counts the calls made;
    once resolved the status is [complete] and the counter is 0. *)
Theorem counter_counts_calls (fuel : nat) (m : Machine) :
  (forall count,
      counter_inv (_repeated (rep m)) (log m) (exec fuel (repeat count m))) /\
  (forall finished,
      counter_inv (_repeated (rep m)) (log m) (exec fuel (until finished m))).
Proof.
  split; intros x; apply exec_keeps_counter_inv.
  - unfold repeat. apply doAction_keeps_counter_inv with (evs := []);
      simpl; auto; try discriminate; try lia. now rewrite app_nil_r.
  - unfold until. apply doAction_keeps_counter_inv with (evs := []);
      simpl; auto; try discriminate; try lia. now rewrite app_nil_r.
Qed.

(** ** [infinite] left alone *)

Lemma tick_pass m :
  not_stopped (rep m) = true ->
  returns_at (_repeated (rep m) + 1) ->
  exists n m2,
    (n <= 1)%nat /\
    exec n (tick m) = (Suspended (mkTask DInfinite AwaitAction), m2) /\
    rep m2 = set_repeated (_repeated (rep m) + 1) (rep m) /\
    calls (log m2) = calls (log m) ++ [_repeated (rep m) + 1].
Proof.
  intros Hns Hret. unfold tick.
  set (m1 := with_rep (fun r => set_repeated (_repeated r + 1) r) m).
  destruct (delay_of (rep m1)) as [ms|].
  - destruct (Hret (sleep ms (world m))) as [w' Hw].
    exists 1%nat. eexists. split; [lia|]. split; [|split].
    + cbn [exec fst snd]. unfold resume, tick_body. cbn [parked driver].
      change (not_stopped (rep (slept ms m1))) with (not_stopped (rep m)).
      rewrite Hns. unfold call_action, slept. simpl. rewrite Hw. reflexivity.
    + reflexivity.
    + simpl. rewrite !calls_app. simpl. now rewrite app_nil_r.
  - destruct (Hret (world m)) as [w' Hw].
    exists 0%nat. eexists. split; [lia|]. split; [|split].
    + cbn [exec]. unfold tick_body.
      change (not_stopped (rep m1)) with (not_stopped (rep m)).
      rewrite Hns. unfold call_action. simpl. rewrite Hw. reflexivity.
    + reflexivity.
    + simpl. now rewrite calls_app.
Qed.

Lemma infinite_passes n :
  never_throws ->
  forall m,
    not_stopped (rep m) = true ->
    exists k m',
      exec k (tick m) = (Suspended (mkTask DInfinite AwaitAction), m') /\
      not_stopped (rep m') = true /\
      _repeated (rep m') = _repeated (rep m) + Z.of_nat (S n) /\
      calls (log m') = calls (log m) ++ indices (_repeated (rep m)) (S n).
Proof.
  intros Hret. induction n as [|n IH]; intros m Hns.
  - destruct (tick_pass m Hns (Hret _)) as (k & m2 & _ & He & Hr & Hc).
    exists k, m2. rewrite Hr. repeat split; assumption.
  - destruct (tick_pass m Hns (Hret _)) as (k & m2 & _ & He & Hr & Hc).
    destruct (IH m2) as (k' & m' & He' & Hns' & Hr' & Hc').
    { rewrite Hr. exact Hns. }
    exists (k + (1 + k'))%nat, m'.
    rewrite exec_add, He, exec_add. split; [exact He'|].
    split; [exact Hns'|]. rewrite Hr', Hc', Hc, Hr. simpl. split; [lia|].
    rewrite <- app_assoc. f_equal. now rewrite (indices_S _ (S n)).
Qed.

Lemma infinite_stays_parked fuel :
  never_throws ->
  forall p m,
    not_stopped (rep m) = true ->
    settled (fst (exec fuel (Suspended (mkTask DInfinite p), m))) = false.
Proof.
  intros Hret. induction fuel as [|fuel IH]; intros p m Hns; [reflexivity|].
  cbn [exec fst snd]. destruct p as [ms|]; unfold resume; cbn [parked driver].
  - unfold tick_body.
    change (not_stopped (rep (slept ms m))) with (not_stopped (rep m)).
    rewrite Hns. unfold call_action.
    destruct (Hret (_repeated (rep (slept ms m))) (world (slept ms m))) as [w' Hw].
    rewrite Hw. now apply IH.
  - unfold tick.
    set (m1 := with_rep (fun r => set_repeated (_repeated r + 1) r) m).
    destruct (delay_of (rep m1)); [now apply IH|].
    unfold tick_body.
    change (not_stopped (rep m1)) with (not_stopped (rep m)).
    rewrite Hns. unfold call_action.
    destruct (Hret (_repeated (rep m1)) (world m1)) as [w' Hw].
    rewrite Hw. now apply IH.
Qed.

(** X7: on an instance that was never stopped and with an action that
    returns, the background loop of [infinite()] never ends by itself, and
    for every [n] it reaches a point where the action has been called
    [n + 1] times, with consecutive indices from the counter on. *)
Theorem infinite_calls_without_end (m : Machine) :
  never_throws ->
  not_stopped (rep m) = true ->
  (forall fuel, settled (fst (exec fuel (infinite m))) = false) /\
  (forall n, exists fuel,
      calls (log (snd (exec fuel (infinite m))))
      = calls (log m) ++ indices (_repeated (rep m)) (S n)).
Proof.
  intros Hret Hns. split.
  - intros fuel. unfold infinite, tick.
    set (m1 := with_rep (fun r => set_repeated (_repeated r + 1) r) (begin m)).
    destruct (delay_of (rep m1)); [now apply infinite_stays_parked|].
    unfold tick_body.
    change (not_stopped (rep m1)) with (not_stopped (rep m)).
    rewrite Hns. unfold call_action.
    destruct (Hret (_repeated (rep m1)) (world m1)) as [w' Hw].
    rewrite Hw. now apply infinite_stays_parked.
  - intros n.
    destruct (infinite_passes n Hret (begin m) Hns) as (k & m' & He & _ & _ & Hc).
    exists k. unfold infinite. rewrite He. exact Hc.
Qed.

Lemma set_repeated_same r : set_repeated (_repeated r) r = r.
Proof. now destruct r. Qed.

Lemma resume_infinite_rep t m :
  driver t = DInfinite ->
  match fst (resume t m) with
  | Suspended t' => driver t' = DInfinite
  | _ => True
  end /\
  exists c, rep (snd (resume t m)) = set_repeated c (rep m).
Proof.
  intros Hd. destruct t as [d [ms|]]; simpl in Hd; subst d;
    unfold resume; cbn [parked driver].
  - split.
    + unfold tick_body. destruct (not_stopped _); [|exact I].
      unfold call_action. now destruct (action _ _).
    + rewrite tick_body_rep. exists (_repeated (rep m)). simpl.
      now rewrite set_repeated_same.
  - split.
    + unfold tick. destruct (delay_of _); [reflexivity|].
      unfold tick_body. destruct (not_stopped _); [|exact I].
      unfold call_action. now destruct (action _ _).
    + rewrite tick_rep. eauto.
Qed.

Lemma exec_infinite_rep fuel :
  forall t m,
    driver t = DInfinite ->
    exists c, rep (snd (exec fuel (Suspended t, m))) = set_repeated c (rep m).
Proof.
  induction fuel as [|fuel IH]; intros t m Hd.
  - exists (_repeated (rep m)). simpl. now rewrite set_repeated_same.
  - cbn [exec fst snd].
    destruct (resume_infinite_rep t m Hd) as (Hp & c & Hc).
    destruct (resume t m) as [[t'| |f] m'] eqn:Hr; simpl in Hp, Hc.
    + destruct (IH t' m' Hp) as (c' & Hc'). exists c'. rewrite Hc', Hc.
      reflexivity.
    + exists c. now rewrite exec_settled.
    + exists c. now rewrite exec_settled.
Qed.

(** X8: the background loop of [infinite()] writes nothing but the
    counter: at every point of the run left alone, whether the action
    returned, threw, or the loop saw the stop flag and ended, the status is
    still [running], [startDate] is the time of the call, and [endDate],
    [runTime], the timeout and the stop flag are what they were.  Only
    [stop()] marks the instance complete. *)
Theorem infinite_never_completes_by_itself (fuel : nat) (m : Machine) :
  status (rep (snd (exec fuel (infinite m)))) = running /\
  startDate (rep (snd (exec fuel (infinite m)))) = Some (clock (world m)) /\
  endDate (rep (snd (exec fuel (infinite m)))) = endDate (rep m) /\
  runTime (rep (snd (exec fuel (infinite m)))) = runTime (rep m) /\
  _timeout (rep (snd (exec fuel (infinite m)))) = _timeout (rep m) /\
  _stopped (rep (snd (exec fuel (infinite m)))) = _stopped (rep m).
Proof.
  assert (H : exists c, rep (snd (exec fuel (infinite m)))
                        = set_repeated c (rep (begin m))).
  { unfold infinite.
    pose proof (tick_rep (begin m)) as Ht.
    destruct (tick (begin m)) as [[t| |f] m1] eqn:Hk; simpl in Ht.
    - assert (Hd : driver t = DInfinite).
      { unfold tick in Hk. destruct (delay_of _).
        - now inversion Hk.
        - unfold tick_body in Hk. destruct (not_stopped _); [|discriminate].
          unfold call_action in Hk. destruct (action _ _); now inversion Hk. }
      destruct (exec_infinite_rep fuel t m1 Hd) as (c & Hc).
      exists c. rewrite Hc, Ht. reflexivity.
    - rewrite exec_settled by reflexivity. simpl. rewrite Ht. eauto.
    - rewrite exec_settled by reflexivity. simpl. rewrite Ht. eauto. }
  destruct H as (c & ->). repeat split.
Qed.

(** X9: once the stop flag is set, [infinite()] on that instance calls the
    action no more: it sets the status to [running], increments the
    counter, lets the delay elapse if one is configured, and the loop
    ends at once, leaving the status [running]. *)
Theorem infinite_after_stop_is_dead (m : Machine) :
  not_stopped (rep m) = false ->
  exists m',
    (forall fuel, (1 <= fuel)%nat -> exec fuel (infinite m) = (Resolved, m')) /\
    log m' = log m ++ delay_events (rep m) /\
    status (rep m') = running /\
    _repeated (rep m') = _repeated (rep m) + 1.
Proof.
  intros Hns. unfold infinite, tick, delay_events.
  set (m1 := with_rep (fun r => set_repeated (_repeated r + 1) r) (begin m)).
  change (delay_of (rep m1)) with (delay_of (rep m)).
  destruct (delay_of (rep m)) as [ms|].
  - exists (slept ms m1). repeat split.
    intros fuel Hf. destruct fuel as [|fuel]; [lia|].
    cbn [exec fst snd]. unfold resume, tick_body. cbn [parked driver].
    change (not_stopped (rep (slept ms m1))) with (not_stopped (rep m)).
    rewrite Hns. now apply exec_settled.
  - exists m1. repeat split.
    + intros fuel Hf. unfold tick_body.
      change (not_stopped (rep m1)) with (not_stopped (rep m)).
      rewrite Hns. now apply exec_settled.
    + simpl. now rewrite app_nil_r.
Qed.

(** ** [stop] during [repeat] *)

Lemma stop_rep m s :
  startDate (rep m) = Some s ->
  log (snd (stop m)) = log m /\
  world (snd (stop m)) = world m /\
  _repeated (rep (snd (stop m))) = 0 /\
  startDate (rep (snd (stop m))) = Some s.
Proof. intros Hs. rewrite (stop_started m s Hs). repeat split. exact Hs. Qed.

(** X10: [stop()] does not cancel a [repeat] run; it only resets its
    numbering.  Called while the driver waits for the action with [n + 1]
    calls still to come, the run goes on to make them, indexed
    [1, ..., n + 1], and completes.  Called while the driver waits for its
    delay with [n + 1] calls to come, the pending call is made with index
    0 and the others with [1, ..., n]. *)
Theorem stop_does_not_cancel_repeat (m : Machine) (s : Z) (n : nat) :
  never_throws ->
  startDate (rep m) = Some s ->
  (exists fuel m',
      exec fuel (Suspended (mkTask (DRepeat (Z.of_nat (S (S n)))) AwaitAction),
                 snd (stop m))
      = (Resolved, m') /\
      calls (log m') = calls (log m) ++ indices 0 (S n)) /\
  (forall ms, exists fuel m',
      exec fuel (Suspended (mkTask (DRepeat (Z.of_nat (S n))) (AwaitSleep ms)),
                 snd (stop m))
      = (Resolved, m') /\
      calls (log m') = calls (log m) ++ 0 :: indices 0 n).
Proof.
  intros Hret Hs.
  destruct (stop_rep m s Hs) as (Hl & Hw & Hc & Hsd).
  split.
  - destruct (repeat_loop n (snd (stop m)) s (fun i _ => Hret i) Hsd)
      as (k & m' & l & _ & He & Hcl & _).
    exists (1 + k)%nat, m'. rewrite exec_add, resume_repeat_more by lia.
    replace (Z.of_nat (S (S n)) - 1) with (Z.of_nat (S n)) by lia.
    split; [exact He|]. now rewrite Hcl, Hl, Hc.
  - intros ms.
    destruct (Hret 0 (sleep ms (world m))) as [w' Hw'].
    set (m3 := mkMachine (rep (snd (stop m))) w'
                 ((log m ++ [EvSleep ms]) ++ [EvCall 0])).
    assert (He1 : exec 1 (Suspended (mkTask (DRepeat (Z.of_nat (S n)))
                                            (AwaitSleep ms)), snd (stop m))
                  = (Suspended (mkTask (DRepeat (Z.of_nat (S n))) AwaitAction),
                     m3)).
    { cbn [exec fst snd]. rewrite resume_after_sleep by reflexivity.
      unfold call_action, slept. cbn [rep world log].
      rewrite Hc, Hw, Hl, Hw'. reflexivity. }
    assert (Hc3 : calls (log m3) = calls (log m) ++ [0]).
    { unfold m3. simpl. rewrite !calls_app. simpl. now rewrite app_nil_r. }
    destruct n as [|n].
    + eexists 2%nat, _. change 2%nat with (1 + 1)%nat.
      rewrite exec_add, He1. split; [apply (resume_repeat_last m3 s); exact Hsd|].
      exact Hc3.
    + destruct (repeat_loop n m3 s (fun i _ => Hret i) Hsd)
        as (k & m' & l & _ & He & Hcl & _).
      exists (1 + (1 + k))%nat, m'.
      rewrite exec_add, He1, exec_add, resume_repeat_more by lia.
      replace (Z.of_nat (S (S n)) - 1) with (Z.of_nat (S n)) by lia.
      split; [exact He|]. rewrite Hcl, Hc3. cbn [m3 rep]. rewrite Hc.
      now rewrite <- app_assoc.
Qed.

(** ** What the operations leave alone *)

Lemma begin_configuration m :
  _timeout (rep (begin m)) = _timeout (rep m) /\
  _stopped (rep (begin m)) = _stopped (rep m).
Proof. split; reflexivity. Qed.

Lemma step_configuration op s :
  ((forall ms, op <> OEvery ms) ->
   _timeout (rep (machine (step op s))) = _timeout (rep (machine s))) /\
  (_stopped (rep (machine s)) = Some true ->
   _stopped (rep (machine (step op s))) = Some true) /\
  (driver_call op = false ->
   startDate (rep (machine (step op s))) = startDate (rep (machine s))).
Proof.
  destruct op as [ms | count | fin | | | i]; simpl.
  - split; [intros H; now contradiction (H ms)|].
    destruct (every_keeps_fields ms (rep (machine s))) as (_ & Hs & _ & _ & _ & Hst).
    split; [now rewrite Hst | auto].
  - rewrite spawn_machine. unfold repeat. rewrite doAction_rep.
    repeat split; auto; discriminate.
  - rewrite spawn_machine. unfold until. rewrite doAction_rep.
    repeat split; auto; discriminate.
  - rewrite spawn_machine. unfold infinite. rewrite tick_rep.
    repeat split; auto; discriminate.
  - unfold stop.
    destruct (complete_configuration
                (with_rep (set_stopped (Some true)) (machine s)))
      as (H1 & H2 & H3).
    repeat split; intros; rewrite ?H1, ?H2, ?H3; reflexivity.
  - destruct (nth_error (tasks s) i) as [t|]; [|auto].
    destruct (resume_configuration t (machine s)) as (H1 & H2 & H3).
    simpl. repeat split; intros; congruence.
Qed.

(** X11: over every sequence of operations (public calls and resumptions
    of parked drivers) the timeout changes only through [every]; the stop
    flag, once set, is never cleared; and [startDate] changes only through
    a driver call. *)
Theorem configuration_persists (ops : list Op) (s : System) :
  (Forall (fun op => forall ms, op <> OEvery ms) ops ->
   _timeout (rep (machine (run_ops ops s))) = _timeout (rep (machine s))) /\
  (_stopped (rep (machine s)) = Some true ->
   _stopped (rep (machine (run_ops ops s))) = Some true) /\
  (Forall (fun op => driver_call op = false) ops ->
   startDate (rep (machine (run_ops ops s))) = startDate (rep (machine s))).
Proof.
  revert s. induction ops as [|op ops IH]; intros s.
  { repeat split; intros; (reflexivity || assumption). }
  destruct (IH (step op s)) as (I1 & I2 & I3).
  destruct (step_configuration op s) as (S1 & S2 & S3).
  unfold run_ops in *. cbn [fold_left]. repeat split.
  - intros H. inversion H; subst. rewrite I1 by assumption. now apply S1.
  - intros H. apply I2. now apply S2.
  - intros H. inversion H; subst. rewrite I3 by assumption. now apply S3.
Qed.

(** ** [TypeError] only before the first driver *)

Lemma resume_failure t m f :
  startDate (rep m) <> None ->
  fst (resume t m) = Rejected f ->
  exists e l, f = UserError e /\ log (snd (resume t m)) = l ++ [EvThrow e].
Proof.
  intros Hs.
  assert (Hcall : forall d m',
             fst (call_action d m') = Rejected f ->
             exists e l, f = UserError e /\
                         log (snd (call_action d m')) = l ++ [EvThrow e]).
  { intros d m'. unfold call_action.
    destruct (action _ _) as [w | e w]; simpl; [discriminate|].
    intros H. inversion H.
    exists e, (log m' ++ [EvCall (_repeated (rep m'))]).
    split; [reflexivity | now rewrite <- app_assoc]. }
  assert (Hdo : forall d m',
             fst (_doAction d m') = Rejected f ->
             exists e l, f = UserError e /\
                         log (snd (_doAction d m')) = l ++ [EvThrow e]).
  { intros d m'. unfold _doAction. destruct (delay_of _); [discriminate|].
    apply Hcall. }
  assert (Htb : forall m',
             fst (tick_body m') = Rejected f ->
             exists e l, f = UserError e /\
                         log (snd (tick_body m')) = l ++ [EvThrow e]).
  { intros m'. unfold tick_body. destruct (not_stopped _); [|discriminate].
    apply Hcall. }
  assert (Hco : forall m',
             startDate (rep m') = startDate (rep m) ->
             fst (settle (_complete m')) = Rejected f ->
             exists e l, f = UserError e /\
                         log (snd (settle (_complete m'))) = l ++ [EvThrow e]).
  { intros m' Hm'. destruct (startDate (rep m)) as [s|] eqn:Hsd; [|congruence].
    rewrite (complete_started m' s Hm'). discriminate. }
  destruct t as [d [ms|]]; unfold resume; cbn [parked driver].
  - destruct d; [apply Hcall | apply Hcall | apply Htb].
  - destruct d as [count | [g | b] | ].
    + destruct (count - 1 =? 0); [now apply Hco | apply Hdo].
    + destruct (g (world m)); cbn [negb]; [now apply Hco | apply Hdo].
    + destruct b; cbn [negb]; [now apply Hco | apply Hdo].
    + unfold tick. destruct (delay_of _); [discriminate | apply Htb].
Qed.

Lemma step_keeps_started op s :
  startDate (rep (machine s)) <> None ->
  startDate (rep (machine (step op s))) <> None.
Proof.
  intros Hs.
  destruct (step_status op s) as [(_ & _ & H & _) | (Hd & _)].
  - rewrite H. discriminate.
  - destruct (step_configuration op s) as (_ & _ & H). now rewrite H.
Qed.

Lemma run_ops_keeps_started ops :
  forall s, startDate (rep (machine s)) <> None ->
            startDate (rep (machine (run_ops ops s))) <> None.
Proof.
  induction ops as [|op ops IH]; intros s Hs; [exact Hs|].
  unfold run_ops in *. cbn [fold_left]. apply IH. now apply step_keeps_started.
Qed.

(** X12: once any driver has been called on the instance, whatever
    operations follow, [stop()] returns normally and the completion of a
    resumed driver does not fail with a [TypeError].  For a predicate of
    [until] that returns (one that throws is outside the model, and would
    reject the promise of [until] with what it threw), a resumed driver is
    rejected only by a throw of the action: the failure is what the action
    threw, and that throw is the newest event of the run. *)
Theorem no_type_error_after_a_driver
        (s0 : System) (op : Op) (ops : list Op) :
  driver_call op = true ->
  fst (stop (machine (run_ops ops (step op s0)))) = Normal /\
  (forall t f,
      fst (resume t (machine (run_ops ops (step op s0)))) = Rejected f ->
      exists e l,
        f = UserError e /\
        log (snd (resume t (machine (run_ops ops (step op s0)))))
        = l ++ [EvThrow e]).
Proof.
  intros Hd.
  assert (Hs : startDate (rep (machine (run_ops ops (step op s0)))) <> None).
  { apply run_ops_keeps_started.
    destruct (step_status op s0) as [(_ & _ & H & _) | (Hd' & _)];
      [rewrite H; discriminate | congruence]. }
  split.
  - destruct (startDate (rep (machine (run_ops ops (step op s0))))) as [s|] eqn:Hsd;
      [|congruence].
    now rewrite (stop_started _ s Hsd).
  - intros t f. now apply resume_failure.
Qed.

(** ** [until]: the checks of the predicate and the completion *)

Lemma until_loop_log f k :
  forall m (traj : nat -> W) s,
    startDate (rep m) = Some s ->
    traj O = world m ->
    (forall j, (j < S k)%nat ->
               action (_repeated (rep m) + Z.of_nat (S j))
                      (delayed (rep m) (traj j))
               = Returned (traj (S j))) ->
    (forall j, (1 <= j < S k)%nat -> f (traj j) = false) ->
    f (traj (S k)) = true ->
    exists n m',
      (n <= 2 * S k)%nat /\
      exec n (_doAction (DUntil (FinFun f)) m) = (Resolved, m') /\
      log m' = log m ++ until_trace (delay_events (rep m)) (_repeated (rep m)) k /\
      world m' = traj (S k) /\
      status (rep m') = complete /\
      _repeated (rep m') = 0.
Proof.
  induction k as [|k IH]; intros m traj s Hs H0 Hact Hfalse Htrue.
  - pose proof (Hact O ltac:(lia)) as Hw. rewrite H0 in Hw.
    change (Z.of_nat 1) with 1 in Hw.
    destruct (doAction_pass (DUntil (FinFun f)) m _ eq_refl Hw) as (n & Hn & He).
    eexists (n + 1)%nat, _. split; [lia|].
    rewrite exec_add, He. split; [apply (resume_until_true f _ s); assumption|].
    cbn [log world rep until_trace]. repeat split.
    now rewrite <- !app_assoc.
  - pose proof (Hact O ltac:(lia)) as Hw. rewrite H0 in Hw.
    change (Z.of_nat 1) with 1 in Hw.
    destruct (doAction_pass (DUntil (FinFun f)) m _ eq_refl Hw) as (n & Hn & He).
    set (m2 := mkMachine (set_repeated (_repeated (rep m) + 1) (rep m)) (traj 1%nat)
                 (log m ++ delay_events (rep m)
                        ++ [EvCall (_repeated (rep m) + 1)])) in *.
    destruct (IH (logged (EvCheck false) m2) (fun j => traj (S j)) s)
      as (n' & m' & Hn' & He' & Hl' & Hw' & Hst' & Hr'); try assumption.
    + reflexivity.
    + intros j Hj. specialize (Hact (S j) ltac:(lia)).
      cbn [logged rep m2 _repeated set_repeated].
      replace (_repeated (rep m) + 1 + Z.of_nat (S j))
        with (_repeated (rep m) + Z.of_nat (S (S j))) by lia.
      exact Hact.
    + intros j Hj. apply Hfalse. lia.
    + exists (n + (1 + n'))%nat, m'. split; [lia|].
      rewrite exec_add, He, exec_add, resume_until_false
        by (apply (Hfalse 1%nat); lia).
      split; [exact He'|]. split; [|auto].
      rewrite Hl'. cbn [logged log rep m2 _repeated set_repeated until_trace].
      change (delay_events (set_repeated (_repeated (rep m) + 1) (rep m)))
        with (delay_events (rep m)).
      now rewrite <- !app_assoc.
Qed.

(** C2: [until(f)] with a predicate function [f] that returns.  In every
    run, as soon as the driver has been resumed once, the action has been
    called, and no check of [f] comes before that first call; every check
    comes directly after a call; a check that returned [true] is the last event of the
    run, with the promise resolved and the status [complete].  And the
    run does what it must: let [traj j] be the world the [j]-th call of
    the action leaves ([traj 0] the world at the call of [until]); if [f]
    is false on [traj 1 .. traj k] and true on [traj (k + 1)], the promise
    resolves, and the events of the run are, pass after pass, the delay
    (if configured), the call and the check of [f] on the world that call
    left, the check of pass [k + 1] being the first to return [true] and
    the last event: after it the action is not called and the status is
    [complete].  With [k = 0] the action is called once although [f] holds
    at once. *)
Theorem until_calls_before_checking (f : W -> bool) (m : Machine) :
  (forall fuel, exists evs,
      log (snd (exec fuel (until (FinFun f) m))) = log m ++ evs /\
      ((1 <= fuel)%nat ->
       exists pre i post,
         evs = pre ++ EvCall i :: post /\ forall b, ~ In (EvCheck b) pre) /\
      checks_follow_calls evs /\
      (forall pre post,
          evs = pre ++ EvCheck true :: post ->
          post = [] /\
          fst (exec fuel (until (FinFun f) m)) = Resolved /\
          status (rep (snd (exec fuel (until (FinFun f) m)))) = complete)) /\
  (forall (k : nat) (traj : nat -> W),
      traj O = world m ->
      (forall j, (j < S k)%nat ->
                 action (_repeated (rep m) + Z.of_nat (S j))
                        (delayed (rep m) (traj j))
                 = Returned (traj (S j))) ->
      (forall j, (1 <= j < S k)%nat -> f (traj j) = false) ->
      f (traj (S k)) = true ->
      exists m',
        (forall fuel, (2 * S k <= fuel)%nat ->
                      exec fuel (until (FinFun f) m) = (Resolved, m')) /\
        log m' = log m ++ until_trace (delay_events (rep m)) (_repeated (rep m)) k /\
        calls (log m') = calls (log m) ++ indices (_repeated (rep m)) (S k) /\
        world m' = traj (S k) /\
        status (rep m') = complete /\
        _repeated (rep m') = 0).
Proof.
  split; [intros fuel; apply until_safety|].
  intros k traj H0 Hact Hfalse Htrue.
  destruct (until_loop_log f k (begin m) traj (clock (world m)))
    as (n & m' & Hn & He & Hl & Hw & Hst & Hr); try assumption; try reflexivity.
  destruct (until_loop f k (begin m) traj (clock (world m)))
    as (n2 & m2 & Hn2 & He2 & Hc2 & _); try assumption; try reflexivity.
  assert (Hall : forall fuel, (2 * S k <= fuel)%nat ->
                              exec fuel (until (FinFun f) m) = (Resolved, m')).
  { intros fuel Hf. unfold until.
    rewrite (exec_stable n fuel); [exact He | now rewrite He | lia]. }
  assert (Hm2 : m2 = m').
  { pose proof (Hall (2 * S k)%nat (Nat.le_refl _)) as H1. unfold until in H1.
    rewrite (exec_stable n2 (2 * S k)) in H1; [| now rewrite He2 | lia].
    congruence. }
  subst m2. exists m'. repeat split; assumption.
Qed.

End Drivers.


(** ** String durations of [every] *)

Import JSString.

Lemma digit_range c :
  isDigit c = true ->
  (c = 48 \/ c = 49 \/ c = 50 \/ c = 51 \/ c = 52 \/
   c = 53 \/ c = 54 \/ c = 55 \/ c = 56 \/ c = 57)%N.
Proof.
  unfold isDigit. intros H. apply andb_prop in H. destruct H as [H1 H2].
  apply N.leb_le in H1. apply N.leb_le in H2. lia.
Qed.

Lemma digit_unit c :
  isDigit c = true ->
  isWhiteSpace c = false /\
  (c =? 45)%N = false /\
  (c =? 43)%N = false /\
  (c =? 120)%N = false /\
  (c =? 88)%N = false /\
  digitIn 10 c = Some (Z.of_N c - 48).
Proof.
  intros H.
  destruct (digit_range c H) as [-> | [-> | [-> | [-> | [-> | [-> | [-> | [-> | [-> | ->]]]]]]]]];
    repeat split; reflexivity.
Qed.

Lemma parseDigits_decimal ds rest :
  allDigits ds = true -> stops rest ->
  forall acc,
    parseDigits 10 acc (ds ++ rest)
    = acc * 10 ^ Z.of_nat (List.length ds) + decimal ds.
Proof.
  intros Hds Hrest. induction ds as [|c ds IH]; intros acc.
  - simpl. destruct rest as [|c0 rest]; simpl; [lia|].
    destruct Hrest as (Hc0 & _). rewrite Hc0. lia.
  - cbn [allDigits] in Hds. apply andb_prop in Hds. destruct Hds as [Hc Hds].
    destruct (digit_unit c Hc) as (_ & _ & _ & _ & _ & Hv).
    cbn [app parseDigits]. rewrite Hv, (IH Hds).
    cbn [List.length decimal]. rewrite Nat2Z.inj_succ, Z.pow_succ_r by lia.
    ring.
Qed.

Lemma parseInt_decimal ds rest :
  ds <> [] -> allDigits ds = true -> stops rest ->
  parseInt (ds ++ rest) = Num (decimal ds).
Proof.
  intros Hne Hds Hrest. destruct ds as [|c ds]; [congruence|].
  pose proof Hds as Hall.
  cbn [allDigits] in Hds. apply andb_prop in Hds. destruct Hds as [Hc Hds].
  destruct (digit_unit c Hc) as (Hws & Hm & Hp & _ & _ & Hv).
  unfold parseInt. cbn [app trimStart]. rewrite Hws.
  unfold stripSign. rewrite Hm, Hp.
  assert (Hpre : stripPrefix (c :: ds ++ rest) = (10, c :: ds ++ rest)).
  { unfold stripPrefix. destruct (ds ++ rest) as [|x tl] eqn:Hx; [reflexivity|].
    assert (Hnx : ((x =? 120)%N || (x =? 88)%N) = false).
    { destruct ds as [|c2 ds].
      - simpl in Hx. subst rest. destruct Hrest as (_ & H1 & H2).
        now rewrite H1, H2.
      - simpl in Hx. inversion Hx; subst.
        cbn [allDigits] in Hds. apply andb_prop in Hds. destruct Hds as [Hc2 _].
        destruct (digit_unit x Hc2) as (_ & _ & _ & H1 & H2 & _).
        now rewrite H1, H2. }
    rewrite Hnx, andb_false_r. reflexivity. }
  rewrite Hpre, Hv.
  change (c :: ds ++ rest) with ((c :: ds) ++ rest).
  rewrite (parseDigits_decimal _ _ Hall Hrest). f_equal. lia.
Qed.

Lemma eqb_refl s : eqb s s = true.
Proof. induction s as [|c s IH]; simpl; [reflexivity|]. now rewrite N.eqb_refl. Qed.

Lemma eqb_eq s t : eqb s t = true -> s = t.
Proof.
  revert t. induction s as [|c s IH]; intros [|d t] H; simpl in H;
    try discriminate; [reflexivity|].
  apply andb_prop in H. destruct H as [H1 H2].
  apply N.eqb_eq in H1. f_equal; auto.
Qed.

Lemma endsWith_own_suffix s suffix : endsWith (s ++ suffix) suffix = true.
Proof.
  induction s as [|c s IH].
  - destruct suffix; cbn [app endsWith]; now rewrite eqb_refl.
  - cbn [app endsWith]. rewrite IH. now destruct (eqb _ _).
Qed.

Lemma endsWith_after_digits ds tail c0 suffix :
  allDigits ds = true -> isDigit c0 = false ->
  endsWith tail (c0 :: suffix) = false ->
  endsWith (ds ++ tail) (c0 :: suffix) = false.
Proof.
  intros Hds Hc0 Ht. induction ds as [|c ds IH]; [exact Ht|].
  cbn [allDigits] in Hds. apply andb_prop in Hds. destruct Hds as [Hc Hds].
  cbn [app endsWith]. rewrite (IH Hds).
  assert (Hne : (c =? c0)%N = false).
  { destruct (N.eqb_spec c c0); [congruence | reflexivity]. }
  cbn [eqb]. now rewrite Hne.
Qed.

Lemma factor_after_digits ds :
  allDigits ds = true ->
  factor_of (ds ++ str "ms") = Some 1 /\
  factor_of (ds ++ str "s") = Some 1000 /\
  factor_of (ds ++ str "m") = Some 60000.
Proof.
  intros Hds.
  assert (E1 : endsWith (ds ++ str "s") (str "ms") = false)
    by (apply (endsWith_after_digits ds (str "s") 109%N (str "s"));
        assumption || reflexivity).
  assert (E2 : endsWith (ds ++ str "m") (str "ms") = false)
    by (apply (endsWith_after_digits ds (str "m") 109%N (str "s"));
        assumption || reflexivity).
  assert (E3 : endsWith (ds ++ str "m") (str "s") = false)
    by (apply (endsWith_after_digits ds (str "m") 115%N []);
        assumption || reflexivity).
  unfold factor_of. repeat split.
  - now rewrite endsWith_own_suffix.
  - now rewrite E1, endsWith_own_suffix.
  - now rewrite E2, E3, endsWith_own_suffix.
Qed.

(** What [every] stores for a string that starts with digits, by its
    unit. *)
Lemma every_digits ds rest r :
  ds <> [] -> allDigits ds = true -> stops rest ->
  every (DStr (ds ++ rest)) r =
  match factor_of (ds ++ rest) with
  | Some k => set_timeout (Some (Num (decimal ds * k))) r
  | None => r
  end.
Proof.
  intros Hne Hds Hrest. unfold every, factor_of.
  rewrite (parseInt_decimal ds rest Hne Hds Hrest).
  destruct (endsWith (ds ++ rest) (str "ms")); [now rewrite Z.mul_1_r|].
  destruct (endsWith (ds ++ rest) (str "s")); [reflexivity|].
  destruct (endsWith (ds ++ rest) (str "m")); [|reflexivity].
  simpl js_mul. do 3 f_equal. lia.
Qed.

(** C6, as the code has it: on every instance [every('2s')],
    [every('500ms')] and [every('1m')] store the timeout that
    [every(2000)], [every(500)] and [every(60000)] store; and for every
    magnitude [ds] written as a non-empty run of decimal digits,
    [every(ds + 'ms')] stores its value, [every(ds + 's')] 1000 times and
    [every(ds + 'm')] 60000 times its value, as long as the result is a
    safe integer; [every(n)] stores [n]. *)
Theorem every_string_durations (r : Repeater) (ds : JSStr) :
  ds <> [] ->
  allDigits ds = true ->
  (every (DStr (str "2s")) r = set_timeout (Some (Num 2000)) r /\
   every (DStr (str "500ms")) r = set_timeout (Some (Num 500)) r /\
   every (DStr (str "1m")) r = set_timeout (Some (Num 60000)) r) /\
  (decimal ds <= max_safe ->
   every (DStr (ds ++ str "ms")) r = set_timeout (Some (Num (decimal ds))) r) /\
  (decimal ds * 1000 <= max_safe ->
   every (DStr (ds ++ str "s")) r
   = set_timeout (Some (Num (decimal ds * 1000))) r) /\
  (decimal ds * 60000 <= max_safe ->
   every (DStr (ds ++ str "m")) r
   = set_timeout (Some (Num (decimal ds * 60000))) r) /\
  (forall n, every (DNum n) r = set_timeout (Some n) r).
Proof.
  intros Hne Hds.
  destruct (factor_after_digits ds Hds) as (F1 & F2 & F3).
  split; [repeat split|]. repeat split.
  - intros _. rewrite every_digits, F1, Z.mul_1_r; auto; repeat split.
  - intros _. rewrite every_digits, F2; auto; repeat split.
  - intros _. rewrite every_digits, F3; auto; repeat split.
Qed.

(** X13: strings that [every] does not understand.  A string that ends
    in neither [s] nor [m] leaves the instance as it is.  A string that
    ends in a unit but does not start with a number ([parseInt] gives NaN)
    stores NaN, after which no delay is applied, whatever timeout was
    configured before. *)
Theorem every_malformed_string (s : JSStr) (r : Repeater) :
  (endsWith s (str "s") = false -> endsWith s (str "m") = false ->
   every (DStr s) r = r) /\
  (parseInt s = NaN ->
   endsWith s (str "s") = true \/ endsWith s (str "m") = true ->
   every (DStr s) r = set_timeout (Some NaN) r /\
   delay_of (every (DStr s) r) = None).
Proof.
  split.
  - intros Hs Hm. unfold every.
    assert (Hms : endsWith s (str "ms") = false).
    { clear Hm. induction s as [|c s IH]; [reflexivity|].
      cbn [endsWith] in *.
      destruct (eqb (c :: s) (str "s")) eqn:E1; [discriminate|].
      rewrite (IH Hs).
      destruct (eqb (c :: s) (str "ms")) eqn:E2; [|reflexivity].
      apply eqb_eq in E2. inversion E2; subst.
      discriminate Hs. }
    now rewrite Hms, Hs, Hm.
  - intros Hnan Hunit. unfold every. rewrite Hnan.
    destruct (endsWith s (str "ms")); [split; reflexivity|].
    destruct (endsWith s (str "s")); [split; reflexivity|].
    destruct (endsWith s (str "m")); [split; reflexivity|].
    destruct Hunit; discriminate.
Qed.

(** X14: [every] reads only the leading run of decimal digits of a string
    as its magnitude and takes the unit from the end of the string; what
    stands between the digits and the unit (a fraction, blanks, words) is
    ignored, so that ['1.5s'] stores 1000.  Stated where the stored number
    is a safe integer. *)
Theorem every_reads_leading_integer (ds rest : JSStr) (r : Repeater) :
  ds <> [] ->
  allDigits ds = true ->
  stops rest ->
  (forall k, factor_of (ds ++ rest) = Some k -> decimal ds * k <= max_safe) ->
  every (DStr (ds ++ rest)) r =
  if endsWith (ds ++ rest) (str "ms") then
    set_timeout (Some (Num (decimal ds))) r
  else if endsWith (ds ++ rest) (str "s") then
    set_timeout (Some (Num (decimal ds * 1000))) r
  else if endsWith (ds ++ rest) (str "m") then
    set_timeout (Some (Num (decimal ds * 60000))) r
  else r.
Proof.
  intros Hne Hds Hrest _. rewrite every_digits by assumption.
  unfold factor_of.
  destruct (endsWith (ds ++ rest) (str "ms")); [now rewrite Z.mul_1_r|].
  destruct (endsWith (ds ++ rest) (str "s")); [reflexivity|].
  destruct (endsWith (ds ++ rest) (str "m")); reflexivity.
Qed.

(** ** Concrete runs *)

Arguments mkMachine {W E} rep world log.
Arguments rep {W E} m.
Arguments world {W E} m.
Arguments log {W E} m.
Arguments mkSystem {W E} machine tasks.
Arguments machine {W E} s.
Arguments tasks {W E} s.
Arguments EvSleep {E} ms.
Arguments EvCall {E} i.
Arguments EvThrow {E} e.
Arguments EvCheck {E} b.
Arguments UserError {E} e.
Arguments TypeError {E}.
Arguments FinFun {W} f.
Arguments FinVal {W} truthy.
Arguments DRepeat {W} count.
Arguments DUntil {W} finished.
Arguments DInfinite {W}.
Arguments mkTask {W} driver parked.
Arguments Suspended {W E} t.
Arguments Resolved {W E}.
Arguments Rejected {W E} f.
Arguments Normal {E}.
Arguments Throw {E} f.
Arguments OEvery {W} ms.
Arguments ORepeat {W} count.
Arguments OUntil {W} finished.
Arguments OInfinite {W}.
Arguments OStop {W}.
Arguments OWake {W} i.
Arguments calls {E} l.
Arguments exec {W E} clock sleep action fuel pm.
Arguments repeat {W E} clock action count m.
Arguments until {W E} clock action finished m.
Arguments infinite {W E} clock action m.
Arguments stop {W E} clock m.
Arguments step {W E} clock sleep action op s.
Arguments run_ops {W E} clock sleep action ops s.
Arguments statuses {W E} clock sleep action ops s.
Arguments spec_lifecycle {W E} clock op s s'.
Arguments never_throws {W E} action.
Arguments returns_at {W E} action i.

Example every_hex : _timeout (every (DStr (str " -0x1Fs")) fresh) = Some (Num (-31000)).
Proof. reflexivity. Qed.

Example every_unknown_suffix : every (DStr (str "5h")) fresh = fresh.
Proof. reflexivity. Qed.

(** A no-break space (code unit 160) in front is white space to
    [parseInt]: the string made of it and ['5s'] stores 5000. *)
Example every_skips_no_break_space :
  every (DStr (160%N :: str "5s")) fresh = set_timeout (Some (Num 5000)) fresh.
Proof. reflexivity. Qed.

(** A unit with no number in front stores NaN. *)
Example every_unit_alone :
  every (DStr (str "ms")) fresh = set_timeout (Some NaN) fresh.
Proof. reflexivity. Qed.

Example every_fraction_truncated :
  every (DStr (str "1.5s")) fresh = every (DNum (Num 1000)) fresh.
Proof. reflexivity. Qed.

(** [repeat(fn).repeat(3)]: [fn] is called with 1, 2, 3 and the status is
    [complete]. *)
Example repeat_3 :
  let r := exec Demo.clock Demo.sleep (Demo.flag_at 9) 3
               (repeat Demo.clock (Demo.flag_at 9) 3 (mkMachine fresh Demo.w0 [])) in
  fst r = Resolved /\
  log (snd r) = [EvCall 1; EvCall 2; EvCall 3] /\
  status (rep (snd r)) = complete.
Proof. repeat split. Qed.

(** [repeat(fn).every(100).repeat(2)] sleeps before each call and takes
    200 ms. *)
Example repeat_2_every_100 :
  let m := mkMachine (every (DNum (Num 100)) fresh) Demo.w0 [] in
  let r := exec Demo.clock Demo.sleep (Demo.flag_at 9) 4 (repeat Demo.clock (Demo.flag_at 9) 2 m) in
  fst r = Resolved /\
  log (snd r) = [EvSleep 100; EvCall 1; EvSleep 100; EvCall 2] /\
  runTime (rep (snd r)) = Some 200.
Proof. repeat split. Qed.

(** The README's [until]: the flag is set in the fifth call. *)
Example until_flag_at_5 :
  let r := exec Demo.clock Demo.sleep (Demo.flag_at 5) 5
               (until Demo.clock (Demo.flag_at 5) (FinFun Demo.flag) (mkMachine fresh Demo.w0 [])) in
  fst r = Resolved /\
  calls (log (snd r)) = [1; 2; 3; 4; 5] /\
  log (snd r) = [EvCall 1; EvCheck false; EvCall 2; EvCheck false;
                 EvCall 3; EvCheck false; EvCall 4; EvCheck false;
                 EvCall 5; EvCheck true].
Proof. repeat split. Qed.

(** A value that is not a function is read once per pass: a truthy one
    gives a single call. *)
Example until_truthy_value :
  let r := exec Demo.clock Demo.sleep (Demo.flag_at 5) 5
               (until Demo.clock (Demo.flag_at 5) (FinVal true) (mkMachine fresh Demo.w0 [])) in
  fst r = Resolved /\ log (snd r) = [EvCall 1].
Proof. repeat split. Qed.

(** An action that throws in its second call. *)
Example repeat_throwing :
  let r := exec Demo.clock Demo.sleep (Demo.throw_at 2) 9
               (repeat Demo.clock (Demo.throw_at 2) 3 (mkMachine (every (DNum (Num 10)) fresh) Demo.w0 [])) in
  fst r = Rejected (UserError "boom"%string) /\
  log (snd r) = [EvSleep 10; EvCall 1; EvSleep 10; EvCall 2; EvThrow "boom"%string] /\
  status (rep (snd r)) = running /\
  endDate (rep (snd r)) = None /\
  runTime (rep (snd r)) = None.
Proof. repeat split. Qed.

(** [repeat(0)]: four calls after three resumptions, and still running. *)
Example repeat_0 :
  let r := exec Demo.clock Demo.sleep (Demo.flag_at 9) 3
               (repeat Demo.clock (Demo.flag_at 9) 0 (mkMachine fresh Demo.w0 [])) in
  fst r = Suspended (mkTask (DRepeat (-3)) AwaitAction) /\
  log (snd r) = [EvCall 1; EvCall 2; EvCall 3; EvCall 4] /\
  status (rep (snd r)) = running.
Proof. repeat split. Qed.

(** ** The theorems at concrete inputs *)


(** [repeat(0)] on a new instance. *)
Lemma repeat_nonpositive_runs_forever_witness :
  0 <= 0 /\
  (forall fuel,
      settled Demo.World string
        (fst (exec Demo.clock Demo.sleep (Demo.flag_at 9) fuel
                   (repeat Demo.clock (Demo.flag_at 9) 0
                           (mkMachine fresh Demo.w0 [])))) = false) /\
  (forall n, exists fuel,
      calls (log (snd (exec Demo.clock Demo.sleep (Demo.flag_at 9) fuel
                            (repeat Demo.clock (Demo.flag_at 9) 0
                                    (mkMachine fresh Demo.w0 [])))))
      = @calls string [] ++ indices 0 (S n)).
Proof.
  split; [lia|].
  apply (repeat_nonpositive_runs_forever Demo.World string Demo.clock Demo.sleep
           (Demo.flag_at 9) 0 (mkMachine fresh Demo.w0 []));
    [lia | intros i w; eexists; reflexivity].
Defined.

(** [every(10).infinite()], one call made, [stop()] during the second
    delay. *)
Lemma stop_lets_pending_delay_elapse_witness :
  delay_of (every (DNum (Num 10)) fresh) = Some 10 /\
  exists m',
    (forall fuel, (2 <= fuel)%nat ->
        exec Demo.clock Demo.sleep (Demo.flag_at 9) fuel
             (Suspended (mkTask DInfinite (AwaitSleep 10)),
              snd (stop Demo.clock
                     (mkMachine
                        (mkRepeater running (Some 0) None None 2
                                    (Some (Num 10)) None)
                        (Demo.mkWorld 10 false) [EvSleep 10; EvCall 1])))
        = (Resolved, m')) /\
    log m' = [EvSleep 10; EvCall 1] ++ [EvSleep 10] /\
    world m' = Demo.sleep 10 (Demo.mkWorld 10 false) /\
    (forall fuel,
        calls (log (snd (exec Demo.clock Demo.sleep (Demo.flag_at 9) fuel
             (Suspended (mkTask DInfinite (AwaitSleep 10)),
              snd (stop Demo.clock
                     (mkMachine
                        (mkRepeater running (Some 0) None None 2
                                    (Some (Num 10)) None)
                        (Demo.mkWorld 10 false) [EvSleep 10; EvCall 1]))))))
        = @calls string [EvSleep 10; EvCall 1]).
Proof.
  split; [reflexivity|].
  apply (stop_lets_pending_delay_elapse Demo.World string Demo.clock Demo.sleep
           (Demo.flag_at 9)
           (mkMachine (every (DNum (Num 10)) fresh) Demo.w0 []) 10 2);
    reflexivity.
Defined.

(** [repeat(2)] on a new instance, resolved after one resumption. *)
Lemma natural_completion_bookkeeping_witness :
  exec Demo.clock Demo.sleep (Demo.flag_at 9) 2
       (repeat Demo.clock (Demo.flag_at 9) 2 (mkMachine fresh Demo.w0 []))
  = (Resolved,
     mkMachine (mkRepeater complete (Some 0) (Some 0) (Some 0) 0 None None)
               Demo.w0 [EvCall 1; EvCall 2]) /\
  status (mkRepeater complete (Some 0) (Some 0) (Some 0) 0 None None) = complete /\
  _repeated (mkRepeater complete (Some 0) (Some 0) (Some 0) 0 None None) = 0 /\
  exists s e,
    Some 0 = Some s /\ Some 0 = Some e /\ e = Demo.clock Demo.w0 /\
    Some 0 = Some (e - s).
Proof.
  split; [reflexivity|].
  apply (natural_completion_bookkeeping Demo.World string Demo.clock Demo.sleep
           (Demo.flag_at 9) 2 (mkMachine fresh Demo.w0 [])
           (mkMachine (mkRepeater complete (Some 0) (Some 0) (Some 0) 0 None None)
                      Demo.w0 [EvCall 1; EvCall 2])).
  left. exists 2. reflexivity.
Defined.

(** [every(100).until(() => flag)] with the flag set in the second call:
    two delays, two calls, two checks, and the promise resolves on the
    check that returned [true]. *)
Lemma until_calls_before_checking_witness :
  exists m',
    (forall fuel, (2 * 2 <= fuel)%nat ->
        exec Demo.clock Demo.sleep (Demo.flag_at 2) fuel
             (until Demo.clock (Demo.flag_at 2) (FinFun Demo.flag)
                    (mkMachine (every (DNum (Num 100)) fresh) Demo.w0 []))
        = (Resolved, m')) /\
    log m' = [] ++ [EvSleep 100; EvCall 1; EvCheck false;
                    EvSleep 100; EvCall 2; EvCheck true] /\
    calls (log m') = @calls string [] ++ indices 0 2 /\
    world m' = Demo.mkWorld 200 true /\
    status (rep m') = complete /\
    _repeated (rep m') = 0.
Proof.
  apply (proj2 (until_calls_before_checking Demo.World string Demo.clock
                  Demo.sleep (Demo.flag_at 2) Demo.flag
                  (mkMachine (every (DNum (Num 100)) fresh) Demo.w0 []))
               1%nat
               (fun j => Demo.mkWorld (100 * Z.of_nat j) (2 <=? Z.of_nat j))).
  - reflexivity.
  - intros j Hj. do 2 (destruct j as [|j]; [reflexivity|]). lia.
  - intros j Hj. do 2 (destruct j as [|j]; [reflexivity || lia|]). lia.
  - reflexivity.
Defined.

(** ['42m'] and the three strings of the specification, on a new
    instance. *)
Lemma every_string_durations_witness :
  str "42" <> [] /\
  JSString.allDigits (str "42") = true /\
  JSString.decimal (str "42") * 60000 <= max_safe /\
  every (DStr (str "42m")) fresh = set_timeout (Some (Num 2520000)) fresh /\
  every (DStr (str "2s")) fresh = set_timeout (Some (Num 2000)) fresh /\
  every (DStr (str "500ms")) fresh = set_timeout (Some (Num 500)) fresh /\
  every (DStr (str "1m")) fresh = set_timeout (Some (Num 60000)) fresh.
Proof.
  assert (Hne : str "42" <> []) by discriminate.
  assert (Hds : JSString.allDigits (str "42") = true) by reflexivity.
  assert (Hr : JSString.decimal (str "42") * 60000 <= max_safe)
    by (apply Z.leb_le; reflexivity).
  destruct (every_string_durations fresh (str "42") Hne Hds)
    as ((A & B & C) & _ & _ & Hm & _).
  split; [exact Hne|]. split; [exact Hds|]. split; [exact Hr|].
  split; [exact (Hm Hr)|]. split; [exact A|]. split; [exact B | exact C].
Defined.

(** [every(10).infinite()] and [stop()] during the first delay: the
    counter is 0 once the loop has unwound. *)
Lemma counter_after_stop_witness :
  exists m',
    (forall fuel, (2 <= fuel)%nat ->
        exec Demo.clock Demo.sleep (Demo.flag_at 9) fuel
             (Suspended (mkTask DInfinite (AwaitSleep 10)),
              snd (stop Demo.clock
                     (@mkMachine Demo.World string
                        (mkRepeater running (Some 0) None None 1
                                    (Some (Num 10)) None)
                        Demo.w0 [])))
        = (Resolved, m')) /\
    _repeated (rep (snd (stop Demo.clock
                     (@mkMachine Demo.World string
                        (mkRepeater running (Some 0) None None 1
                                    (Some (Num 10)) None)
                        Demo.w0 [])))) = 0 /\
    calls (log m') = @calls string [] /\
    _repeated (rep m') = 0.
Proof.
  apply (counter_after_stop Demo.World string Demo.clock Demo.sleep
           (Demo.flag_at 9)
           (mkMachine (every (DNum (Num 10)) fresh) Demo.w0 []) 0
           (mkTask DInfinite (AwaitSleep 10))).
  reflexivity.
Defined.

(** [stop()] on a new instance. *)
Lemma stop_before_any_driver_witness :
  status fresh = idle /\
  startDate fresh = None /\
  stop Demo.clock (@mkMachine Demo.World string fresh Demo.w0 []) =
  (Throw TypeError,
   mkMachine (mkRepeater complete None (Some 0) None 0 None (Some true))
             Demo.w0 []).
Proof.
  split; [reflexivity|]. split; [reflexivity|].
  apply (stop_before_any_driver Demo.World string Demo.clock
           (mkMachine fresh Demo.w0 [])); reflexivity.
Defined.

(** C9, the specification's wording refuted at [every(10).infinite()]
    with [stop()] called during the delay that follows the first call:
    the loop unwinds with the counter at 0. *)
Lemma stop_during_delay_leaves_counter_0 :
  ~ spec_counter_after_stop Demo.World string Demo.clock Demo.sleep
      (Demo.flag_at 9)
      (mkMachine (every (DNum (Num 10)) fresh) Demo.w0 []).
Proof.
  intros H.
  specialize (H 2%nat
                (mkTask DInfinite (AwaitSleep 10))
                (mkMachine
                   (mkRepeater running (Some 0) None None 2 (Some (Num 10)) None)
                   (Demo.mkWorld 10 false) [EvSleep 10; EvCall 1])
                1%nat
                (mkMachine
                   (mkRepeater complete (Some 0) (Some 10) (Some 10) 0
                               (Some (Num 10)) (Some true))
                   (Demo.mkWorld 20 false)
                   [EvSleep 10; EvCall 1; EvSleep 10])
                eq_refl eq_refl).
  discriminate H.
Qed.

(** [infinite()] without delay on a new instance (the first call is made
    at once), [stop()] while that call is awaited, and the last tick of the
    loop: status [complete] with the counter at 1. *)
Example stopped_loop_unwound :
  run_ops Demo.clock Demo.sleep (Demo.flag_at 9)
          [OInfinite; OStop; OWake 0%nat]
          (mkSystem (mkMachine fresh Demo.w0 []) [])
  = mkSystem
      (mkMachine
         (mkRepeater complete (Some 0) (Some 0) (Some 0) 1 None (Some true))
         Demo.w0 [EvCall 1])
      [].
Proof. reflexivity. Qed.

(** C7, the specification's wording refuted: [stop()] as the first
    operation on a new instance takes the status from [idle] straight to
    [complete]; and after [infinite()], [stop()] and the last tick of the
    loop the counter is 1, so that a new [repeat(1)] goes from [complete]
    to [running] with its first call at index 2. *)
Lemma stop_first_breaks_lifecycle :
  ~ spec_lifecycle Demo.clock OStop
      (mkSystem (mkMachine fresh Demo.w0 []) [])
      (step Demo.clock Demo.sleep (Demo.flag_at 9) OStop
            (mkSystem (mkMachine fresh Demo.w0 []) [])) /\
  ~ spec_lifecycle Demo.clock (ORepeat 1)
      (run_ops Demo.clock Demo.sleep (Demo.flag_at 9)
               [OInfinite; OStop; OWake 0%nat]
               (mkSystem (mkMachine fresh Demo.w0 []) []))
      (step Demo.clock Demo.sleep (Demo.flag_at 9) (ORepeat 1)
            (run_ops Demo.clock Demo.sleep (Demo.flag_at 9)
                     [OInfinite; OStop; OWake 0%nat]
                     (mkSystem (mkMachine fresh Demo.w0 []) []))).
Proof.
  split.
  - intros H. exact H.
  - rewrite stopped_loop_unwound. intros (_ & _ & H). discriminate H.
Qed.

(** ** The further properties at concrete inputs *)

Arguments sleep_waits {W} clock sleep.
Arguments action_takes_time {W E} clock action.
Arguments delayed {W} sleep r w.

(** [every(100).repeat(3)] takes at least 300 ms. *)
Lemma repeat_takes_N_delays_witness :
  sleep_waits Demo.clock Demo.sleep /\
  action_takes_time Demo.clock (Demo.throw_at 4) /\
  exists m' t,
    exec Demo.clock Demo.sleep (Demo.throw_at 4) (2 * Z.to_nat 3)
         (repeat Demo.clock (Demo.throw_at 4) 3
                 (mkMachine (every (DNum (Num 100)) fresh) Demo.w0 []))
    = (Resolved, m') /\
    runTime (rep m') = Some t /\
    3 * delay_ms (every (DNum (Num 100)) fresh) <= t.
Proof.
  assert (Hsl : sleep_waits Demo.clock Demo.sleep).
  { intros ms w. unfold Demo.clock, Demo.sleep. simpl. lia. }
  assert (Hact : action_takes_time Demo.clock (Demo.throw_at 4)).
  { intros i w w'. unfold Demo.throw_at.
    destruct (4 <=? i); intros H; inversion H; subst; lia. }
  split; [exact Hsl|]. split; [exact Hact|].
  apply (repeat_takes_N_delays Demo.World string Demo.clock Demo.sleep
           (Demo.throw_at 4) 3
           (mkMachine (every (DNum (Num 100)) fresh) Demo.w0 []));
    [lia | exact Hsl | exact Hact | | reflexivity].
  intros i Hi w. exists w. unfold Demo.throw_at.
  destruct (Z.leb_spec 4 i); [lia | reflexivity].
Defined.

(** [until(true)] and [until(false)] on a new instance. *)
Lemma until_value_not_reevaluated_witness :
  never_throws (Demo.flag_at 9) /\
  (exists m',
      (forall fuel, (2 <= fuel)%nat ->
          exec Demo.clock Demo.sleep (Demo.flag_at 9) fuel
               (until Demo.clock (Demo.flag_at 9) (FinVal true)
                      (mkMachine fresh Demo.w0 []))
          = (Resolved, m')) /\
      calls (log m') = @calls string [] ++ [0 + 1] /\
      status (rep m') = complete) /\
  (forall fuel,
      settled Demo.World string
        (fst (exec Demo.clock Demo.sleep (Demo.flag_at 9) fuel
                   (until Demo.clock (Demo.flag_at 9) (FinVal false)
                          (mkMachine fresh Demo.w0 [])))) = false).
Proof.
  assert (Hret : never_throws (Demo.flag_at 9))
    by (intros i w; eexists; reflexivity).
  split; [exact Hret|].
  destruct (until_value_not_reevaluated Demo.World string Demo.clock Demo.sleep
              (Demo.flag_at 9) (mkMachine fresh Demo.w0 []) Hret)
    as (H1 & H2 & _).
  split; [exact H1 | exact H2].
Defined.

(** The specification's scenario: the flag is set in the fifth call, and
    [until(() => flag)] makes exactly five calls. *)
Lemma until_stops_at_first_true_witness :
  exists m',
    (forall fuel, (2 * 5 <= fuel)%nat ->
        exec Demo.clock Demo.sleep (Demo.flag_at 5) fuel
             (until Demo.clock (Demo.flag_at 5) (FinFun Demo.flag)
                    (mkMachine fresh Demo.w0 []))
        = (Resolved, m')) /\
    calls (log m') = @calls string [] ++ indices 0 5 /\
    world m' = Demo.mkWorld 0 (5 <=? Z.of_nat 5) /\
    status (rep m') = complete.
Proof.
  apply (until_stops_at_first_true Demo.World string Demo.clock Demo.sleep
           (Demo.flag_at 5) Demo.flag 4 (mkMachine fresh Demo.w0 [])
           (fun j => Demo.mkWorld 0 (5 <=? Z.of_nat j))).
  - reflexivity.
  - intros j Hj. do 5 (destruct j as [|j]; [reflexivity|]). lia.
  - intros j Hj. do 5 (destruct j as [|j]; [reflexivity || lia|]). lia.
  - reflexivity.
Defined.

(** [repeat(2)] twice on one instance. *)
Lemma second_run_restarts_at_1_witness :
  exists m2,
    (forall fuel, (2 * Z.to_nat 2 <= fuel)%nat ->
        exec Demo.clock Demo.sleep (Demo.flag_at 9) fuel
             (repeat Demo.clock (Demo.flag_at 9) 2
                (mkMachine
                   (mkRepeater complete (Some 0) (Some 0) (Some 0) 0 None None)
                   Demo.w0 [EvCall 1; EvCall 2]))
        = (Resolved, m2)) /\
    calls (log m2)
    = @calls string [EvCall 1; EvCall 2] ++ map Z.of_nat (seq 1 (Z.to_nat 2)) /\
    startDate (rep m2) = Some (Demo.clock Demo.w0) /\
    _timeout (rep m2) = _timeout fresh.
Proof.
  apply (second_run_restarts_at_1 Demo.World string Demo.clock Demo.sleep
           (Demo.flag_at 9) 2 (mkMachine fresh Demo.w0 [])
           (mkMachine
              (mkRepeater complete (Some 0) (Some 0) (Some 0) 0 None None)
              Demo.w0 [EvCall 1; EvCall 2]) 2).
  - left. exists 2. reflexivity.
  - lia.
  - intros i _ w. eexists. reflexivity.
Defined.

(** [infinite()] on a new instance. *)
Lemma infinite_calls_without_end_witness :
  never_throws (Demo.flag_at 9) /\
  not_stopped fresh = true /\
  (forall fuel,
      settled Demo.World string
        (fst (exec Demo.clock Demo.sleep (Demo.flag_at 9) fuel
                   (infinite Demo.clock (Demo.flag_at 9)
                             (mkMachine fresh Demo.w0 [])))) = false).
Proof.
  assert (Hret : never_throws (Demo.flag_at 9))
    by (intros i w; eexists; reflexivity).
  split; [exact Hret|]. split; [reflexivity|].
  exact (proj1 (infinite_calls_without_end Demo.World string Demo.clock
                  Demo.sleep (Demo.flag_at 9) (mkMachine fresh Demo.w0 [])
                  Hret eq_refl)).
Defined.

(** [infinite()] on an instance that was stopped, with [every(10)]. *)
Lemma infinite_after_stop_is_dead_witness :
  not_stopped (mkRepeater complete (Some 0) (Some 0) (Some 0) 0
                          (Some (Num 10)) (Some true)) = false /\
  exists m',
    (forall fuel, (1 <= fuel)%nat ->
        exec Demo.clock Demo.sleep (Demo.flag_at 9) fuel
             (infinite Demo.clock (Demo.flag_at 9)
                (mkMachine
                   (mkRepeater complete (Some 0) (Some 0) (Some 0) 0
                               (Some (Num 10)) (Some true))
                   Demo.w0 []))
        = (Resolved, m')) /\
    log m' = [] ++ [EvSleep 10] /\
    status (rep m') = running /\
    _repeated (rep m') = 0 + 1.
Proof.
  split; [reflexivity|].
  apply (infinite_after_stop_is_dead Demo.World string Demo.clock Demo.sleep
           (Demo.flag_at 9)
           (mkMachine
              (mkRepeater complete (Some 0) (Some 0) (Some 0) 0
                          (Some (Num 10)) (Some true))
              Demo.w0 [])).
  reflexivity.
Defined.

(** [repeat(3)], [stop()] while the first call is awaited: two more calls,
    numbered 1 and 2. *)
Lemma stop_does_not_cancel_repeat_witness :
  never_throws (Demo.flag_at 9) /\
  exists fuel m',
    exec Demo.clock Demo.sleep (Demo.flag_at 9) fuel
         (Suspended (mkTask (DRepeat (Z.of_nat 3)) AwaitAction),
          snd (stop Demo.clock
                 (mkMachine
                    (mkRepeater running (Some 0) None None 1 None None)
                    Demo.w0 [EvCall 1])))
    = (Resolved, m') /\
    calls (log m') = @calls string [EvCall 1] ++ indices 0 2.
Proof.
  assert (Hret : never_throws (Demo.flag_at 9))
    by (intros i w; eexists; reflexivity).
  split; [exact Hret|].
  exact (proj1 (stop_does_not_cancel_repeat Demo.World string Demo.clock
                  Demo.sleep (Demo.flag_at 9)
                  (mkMachine
                     (mkRepeater running (Some 0) None None 1 None None)
                     Demo.w0 [EvCall 1])
                  0 1 Hret eq_refl)).
Defined.

(** [stop()] after [repeat(1)] and [every('1s')] on a new instance. *)
Lemma no_type_error_after_a_driver_witness :
  fst (stop Demo.clock
         (machine
            (run_ops Demo.clock Demo.sleep (Demo.flag_at 9)
               [OEvery (DStr (str "1s"))]
               (step Demo.clock Demo.sleep (Demo.flag_at 9) (ORepeat 1)
                     (mkSystem (mkMachine fresh Demo.w0 []) [])))))
  = Normal.
Proof.
  exact (proj1 (no_type_error_after_a_driver Demo.World string Demo.clock
                  Demo.sleep (Demo.flag_at 9)
                  (mkSystem (mkMachine fresh Demo.w0 []) [])
                  (ORepeat 1) [OEvery (DStr (str "1s"))] eq_refl)).
Defined.

(** ['minutes'] after [every(500)]: the delay is gone. *)
Lemma every_malformed_string_witness :
  JSString.parseInt (str "minutes") = NaN /\
  every (DStr (str "minutes")) (every (DNum (Num 500)) fresh)
  = set_timeout (Some NaN) (every (DNum (Num 500)) fresh) /\
  delay_of (every (DStr (str "minutes")) (every (DNum (Num 500)) fresh)) = None.
Proof.
  split; [reflexivity|].
  apply (proj2 (every_malformed_string (str "minutes")
                  (every (DNum (Num 500)) fresh)));
    [reflexivity | left; reflexivity].
Defined.

(** ['1.5s'] stores 1000. *)
Lemma every_reads_leading_integer_witness :
  every (DStr (str "1.5s")) fresh = set_timeout (Some (Num 1000)) fresh.
Proof.
  apply (every_reads_leading_integer (str "1") (str ".5s") fresh);
    [discriminate | reflexivity | repeat split |].
  intros k Hk. change (Some 1000 = Some k) in Hk. inversion Hk.
  apply Z.leb_le. reflexivity.
Defined.

(** C6, the specification's wording refuted at [every('1.5s')]: the
    numeric magnitude 1.5 times 1000 is 1500, and the code stores 1000. *)
Lemma fraction_is_not_read :
  ~ spec_every_fraction (str "1") (str "5") (str "s") 1000 fresh.
Proof.
  intros (z & Hz & Hq).
  assert (E : _timeout (every (DStr (str "1" ++ str "." ++ str "5" ++ str "s"))
                              fresh) = Some (Num 1000)) by reflexivity.
  rewrite E in Hz. inversion Hz; subst z.
  unfold spec_milliseconds, Qeq in Hq. cbn in Hq. lia.
Qed.
